(** * make_xml_from_docx: the line normaliser and the Title/Chapter/Section parser

    A shallow embedding of [src/make_xml_from_docx.py].  Python strings are
    lists of Unicode code points; the regular expressions of the module are
    run by a small backtracking matcher that follows the order in which
    CPython's [re] explores the alternatives of greedy and lazy repeats. *)

From Stdlib Require Import Strings.String Strings.Ascii.
From Stdlib Require Import List NArith ZArith Bool Arith Lia.
Import ListNotations.

(** ** Strings *)

(** A character is a code point, a [str] is a Python [str]. *)
Abbreviation char := N (only parsing).
Abbreviation str := (list N) (only parsing).

(** Literals are written as UTF-8 text and decoded to code points. *)
Fixpoint utf8_go (s : string) (need : nat) (acc : N) : str :=
  match s with
  | EmptyString => []
  | String a r =>
      let b := N_of_ascii a in
      match need with
      | O =>
          if (b <? 128)%N then b :: utf8_go r 0 0%N
          else if (b <? 224)%N then utf8_go r 1 (b - 192)%N
          else if (b <? 240)%N then utf8_go r 2 (b - 224)%N
          else utf8_go r 3 (b - 240)%N
      | S O => (acc * 64 + (b - 128))%N :: utf8_go r 0 0%N
      | S n => utf8_go r n (acc * 64 + (b - 128))%N
      end
  end.

Definition u (s : string) : str := utf8_go s 0 0%N.

Definition EM_DASH : char := 8212%N.   (* U+2014 *)
Definition EN_DASH : char := 8211%N.   (* U+2013 *)
Definition NEWLINE : char := 10%N.
Definition SPACE : char := 32%N.
Definition PERIOD : char := 46%N.

Definition str_eqb (a b : str) : bool :=
  if list_eq_dec N.eq_dec a b then true else false.

Definition nonempty (s : str) : bool :=
  match s with [] => false | _ :: _ => true end.

(** [str.isspace] on one character, which is also the class [\s] of a [str]
    pattern: both go through [Py_UNICODE_ISSPACE]. *)
Definition is_space (c : char) : bool :=
  ((9 <=? c) && (c <=? 13) || (28 <=? c) && (c <=? 32) || (c =? 133)
   || (c =? 160) || (c =? 5760) || (8192 <=? c) && (c <=? 8202)
   || (c =? 8232) || (c =? 8233) || (c =? 8239) || (c =? 8287)
   || (c =? 12288))%N.

(** The class [\d] of a [str] pattern: the decimal digits (general category
    Nd).  Every block but one is ten code points long; the table lists the
    first code point of each block as in Unicode 14.0, the data of
    CPython 3.11. *)
Definition ND_BLOCKS : list N :=
  [1632; 1776; 1984; 2406; 2534; 2662; 2790; 2918; 3046; 3174; 3302; 3430;
   3558; 3664; 3792; 3872; 4160; 4240; 6112; 6160; 6470; 6608; 6784; 6800;
   6992; 7088; 7232; 7248; 42528; 43216; 43264; 43472; 43504; 43600; 44016;
   65296; 66720; 68912; 69734; 69872; 69942; 70096; 70384; 70736; 70864;
   71248; 71360; 71472; 71904; 72016; 72784; 73040; 73120; 92768; 92864;
   93008; 120782; 120792; 120802; 120812; 120822; 123200; 123632; 125264;
   130032]%N.

Definition is_ascii_digit (c : char) : bool := ((48 <=? c) && (c <=? 57))%N.

Definition is_digit (c : char) : bool :=
  is_ascii_digit c
  || existsb (fun b => (b <=? c) && (c <=? b + 9))%N ND_BLOCKS.

(** [.] without DOTALL: anything but a line feed. *)
Definition is_any (c : char) : bool := negb (c =? NEWLINE)%N.

(** A literal character of a case-sensitive pattern. *)
Definition is_chr (x : char) (c : char) : bool := (c =? x)%N.

(** A literal character of an IGNORECASE pattern.  The letters of the
    patterns are those of "title" and "chapter"; each matches its two ASCII
    cases, and "i" also matches U+0130 and U+0131 (dotted capital I and
    dotless i), the only other code points that CPython folds onto one of
    these letters.  [x] is given in lower case. *)
Definition is_chr_ci (x : char) (c : char) : bool :=
  ((c =? x) || (c =? x - 32)
   || (x =? 105) && ((c =? 304) || (c =? 305)))%N.

(** [str.lower] on one character, as far as the parser looks at it: the
    parser only asks whether the lowered line starts with "chapter" and
    contains "sec", and the only code points whose lower case contains
    one of those letters are the ASCII capitals.  Other code points are
    left in place. *)
Definition lower_char (c : char) : char :=
  if ((65 <=? c) && (c <=? 90))%N then (c + 32)%N else c.

Definition lower (s : str) : str := map lower_char s.

Fixpoint startswith (s prefix : str) : bool :=
  match prefix, s with
  | [], _ => true
  | p :: prefix', c :: s' => (c =? p)%N && startswith s' prefix'
  | _ :: _, [] => false
  end.

(** [sub in s] *)
Fixpoint contains (s sub : str) : bool :=
  startswith s sub
  || match s with
     | [] => false
     | _ :: s' => contains s' sub
     end.

(** [s.find(sub)]: the lowest index where [sub] starts, or -1. *)
Fixpoint find_from (s sub : str) (i : Z) : Z :=
  if startswith s sub then i
  else match s with
       | [] => (-1)%Z
       | _ :: s' => find_from s' sub (i + 1)%Z
       end.

Definition find (s sub : str) : Z := find_from s sub 0%Z.

Fixpoint lstrip_by (f : char -> bool) (s : str) : str :=
  match s with
  | [] => []
  | c :: s' => if f c then lstrip_by f s' else s
  end.

Definition rstrip_by (f : char -> bool) (s : str) : str :=
  rev (lstrip_by f (rev s)).

(** [s.strip()] *)
Definition strip (s : str) : str := rstrip_by is_space (lstrip_by is_space s).

(** [s.rstrip(chars)] *)
Definition rstrip_chars (chars : str) (s : str) : str :=
  rstrip_by (fun c => existsb (N.eqb c) chars) s.

(** [sep.join(parts)] *)
Fixpoint join (sep : str) (parts : list str) : str :=
  match parts with
  | [] => []
  | [p] => p
  | p :: rest => p ++ sep ++ join sep rest
  end.

(** ** Regular expressions *)

(** A pattern is the sequence of its items, in the order the [re] module
    compiles them.  Every repeat of the module's patterns is over a single
    character class and every group holds one repeat, so an item is an
    anchor, a group mark, or a character class taken once, optionally,
    or repeatedly. *)
Inductive op : Type :=
| Bol                               (* ^ *)
| Eol                               (* $ *)
| Open                              (* ( *)
| Close                             (* ) *)
| One (c : char -> bool)            (* a class, once *)
| Opt (c : char -> bool)            (* c?  *)
| Star (c : char -> bool)           (* c*  *)
| LazyStar (c : char -> bool).      (* c*? *)

Abbreviation pattern := (list op) (only parsing).

(** The matcher's state: the number of characters consumed since the start
    of the subject, the rest of the subject, the groups closed so far, and
    the text of the group that is open (most recent character first). *)
Record cfg : Type := Cfg {
  pos : nat;
  inp : str;
  groups : list str;
  acc : option str
}.

Definition consume (x : char) (s' : str) (k : cfg) : cfg :=
  Cfg (S (pos k)) s' (groups k) (option_map (cons x) (acc k)).

Definition open_group (k : cfg) : cfg :=
  Cfg (pos k) (inp k) (groups k) (Some []).

Definition close_group (k : cfg) : cfg :=
  Cfg (pos k) (inp k)
      (groups k ++ [match acc k with Some a => rev a | None => [] end]) None.

(** [$] without MULTILINE: the end of the subject, or just before a line
    feed that ends it. *)
Definition at_end (s : str) : bool :=
  match s with
  | [] => true
  | [c] => (c =? NEWLINE)%N
  | _ => false
  end.

Definition orelse {A} (a b : option A) : option A :=
  match a with Some _ => a | None => b end.

(** A greedy repeat takes a character whenever it can and gives it back
    only when the rest of the pattern fails. *)
Fixpoint star_greedy (c : char -> bool) (rest : cfg -> option cfg)
    (s : str) (k : cfg) : option cfg :=
  match s with
  | x :: s' =>
      if c x
      then orelse (star_greedy c rest s' (consume x s' k)) (rest k)
      else rest k
  | [] => rest k
  end.

(** A lazy repeat first tries the rest of the pattern and takes one more
    character only when that fails. *)
Fixpoint star_lazy (c : char -> bool) (rest : cfg -> option cfg)
    (s : str) (k : cfg) : option cfg :=
  match rest k with
  | Some r => Some r
  | None =>
      match s with
      | x :: s' => if c x then star_lazy c rest s' (consume x s' k) else None
      | [] => None
      end
  end.

Fixpoint exec (p : pattern) {struct p} : cfg -> option cfg :=
  match p with
  | [] => fun k => Some k
  | Bol :: p' => fun k => if Nat.eqb (pos k) 0 then exec p' k else None
  | Eol :: p' => fun k => if at_end (inp k) then exec p' k else None
  | Open :: p' => fun k => exec p' (open_group k)
  | Close :: p' => fun k => exec p' (close_group k)
  | One c :: p' => fun k =>
      match inp k with
      | x :: s' => if c x then exec p' (consume x s' k) else None
      | [] => None
      end
  | Opt c :: p' => fun k =>
      match inp k with
      | x :: s' =>
          if c x then orelse (exec p' (consume x s' k)) (exec p' k)
          else exec p' k
      | [] => exec p' k
      end
  | Star c :: p' => fun k => star_greedy c (exec p') (inp k) k
  | LazyStar c :: p' => fun k => star_lazy c (exec p') (inp k) k
  end.

(** [pattern.match(s)]: the groups of the match that starts at index 0. *)
Definition re_match (p : pattern) (s : str) : option (list str) :=
  option_map groups (exec p (Cfg 0 s [] None)).

(** [pattern.search(s)]: the groups of the leftmost match. *)
Fixpoint search_from (p : pattern) (s : str) (i : nat) : option (list str) :=
  match exec p (Cfg i s [] None) with
  | Some r => Some (groups r)
  | None =>
      match s with
      | [] => None
      | _ :: s' => search_from p s' (S i)
      end
  end.

Definition re_search (p : pattern) (s : str) : option (list str) :=
  search_from p s 0.

(** [m.group(n)], for [n >= 1]. *)
Definition group (n : nat) (m : list str) : str := nth (n - 1) m [].

(** Pattern syntax. *)
Definition lit (s : string) : pattern := map (fun c => One (is_chr c)) (u s).
Definition lit_ci (s : string) : pattern :=
  map (fun c => One (is_chr_ci c)) (u s).
Definition plus (c : char -> bool) : pattern := [One c; Star c].
Definition lazy_plus (c : char -> bool) : pattern := [One c; LazyStar c].
Definition grp (p : pattern) : pattern := Open :: p ++ [Close].

(** "^TITLE\s+(\d+)\.\s*—\s*(.+?)\s*$", IGNORECASE *)
Definition RE_TITLE_LINE_MIN : pattern :=
  [Bol] ++ lit_ci "title" ++ plus is_space ++ grp (plus is_digit)
  ++ lit "." ++ [Star is_space] ++ lit "—" ++ [Star is_space]
  ++ grp (lazy_plus is_any) ++ [Star is_space; Eol].

(** "^Chapter\s+(\d+)\.?\s*—\s*(.+?)\.?\s*$", IGNORECASE *)
Definition RE_CHAPTER_HEAD : pattern :=
  [Bol] ++ lit_ci "chapter" ++ plus is_space ++ grp (plus is_digit)
  ++ [Opt (is_chr PERIOD); Star is_space] ++ lit "—" ++ [Star is_space]
  ++ grp (lazy_plus is_any) ++ [Opt (is_chr PERIOD); Star is_space; Eol].

(** The part that the two section patterns share: "^(\d+)\.\s*(.+?)\s*—\s*" *)
Definition SECTION_PREFIX : pattern :=
  [Bol] ++ grp (plus is_digit) ++ lit "." ++ [Star is_space]
  ++ grp (lazy_plus is_any) ++ [Star is_space] ++ lit "—" ++ [Star is_space].

(** "^(\d+)\.\s*(.+?)\s*—\s*(.+)$" *)
Definition RE_SECTION_INLINE : pattern :=
  SECTION_PREFIX ++ grp (plus is_any) ++ [Eol].

(** "^(\d+)\.\s" *)
Definition RE_SECTION_HEADER : pattern :=
  [Bol] ++ grp (plus is_digit) ++ lit "." ++ [One is_space].

(** The pattern that [to_xml_tree] compiles in place for a section whose
    body goes on in the next paragraphs: RE_SECTION_INLINE with ".*" in
    its last group, where RE_SECTION_INLINE has ".+". *)
Definition RE_SECTION_MULTI : pattern :=
  SECTION_PREFIX ++ grp [Star is_any] ++ [Eol].

(** "\s+", the pattern of [normalize] *)
Definition RE_SPACES : pattern := plus is_space.

(** "Title\s+(\d+)", IGNORECASE, the pattern of the file name fallback *)
Definition RE_FILE_TITLE : pattern :=
  lit_ci "title" ++ plus is_space ++ grp (plus is_digit).

(** [pattern.sub(repl, s)], for a pattern that matches no empty string:
    the non-overlapping matches are replaced from left to right, and the
    scan resumes where a match ended ([skip] counts the characters of the
    last match that are still to be passed over). *)
Fixpoint sub_from (p : pattern) (repl : str) (s : str) (i skip : nat) : str :=
  match s with
  | [] => []
  | c :: s' =>
      match skip with
      | S n => sub_from p repl s' (S i) n
      | O =>
          match exec p (Cfg i s [] None) with
          | Some r =>
              match pos r - i with
              | O => c :: sub_from p repl s' (S i) 0
              | S n => repl ++ sub_from p repl s' (S i) n
              end
          | None => c :: sub_from p repl s' (S i) 0
          end
      end
  end.

Definition re_sub (p : pattern) (repl : str) (s : str) : str :=
  sub_from p repl s 0 0.

(** ** The line normaliser *)

(** [s.replace(old, new)] for one-character strings *)
Definition replace_char (old new : char) (s : str) : str :=
  map (fun c => if (c =? old)%N then new else c) s.

Definition normalize (s : str) : str :=
  let s := replace_char EN_DASH EM_DASH s in
  let s := re_sub RE_SPACES (u " ") s in
  strip s.

(** ** The title *)

(** The loop of [build_title_name] over the paragraphs: the first paragraph
    that matches decides, and the loop breaks there. *)
Fixpoint title_from_paragraphs (paragraphs : list str) : option (str * str) :=
  match paragraphs with
  | [] => None
  | p :: rest =>
      match re_match RE_TITLE_LINE_MIN p with
      | Some m =>
          let title_num := group 1 m in
          let title_text := group 2 m in
          let cut := find title_text (u "Chapter") in
          let title_text :=
            if negb (cut =? -1)%Z
            then rstrip_chars (u " .") (firstn (Z.to_nat cut) title_text)
            else title_text in
          Some (title_num, u "TITLE " ++ title_num ++ u ".—" ++ strip title_text)
      | None => title_from_paragraphs rest
      end
  end.

(** [build_title_name(docx_path, paragraphs)] returns
    [(title_num, title_display)].  [stem] is [docx_path.stem], the only part
    of the path that the function reads.  A display name set by the loop
    starts with "TITLE " and is never empty, so [not title_display] holds
    exactly when no paragraph matched. *)
Definition build_title_name (stem : str) (paragraphs : list str) : str * str :=
  match title_from_paragraphs paragraphs with
  | Some r => r
  | None =>
      let title_num :=
        match re_search RE_FILE_TITLE stem with
        | Some m => group 1 m
        | None => u "?"
        end in
      (title_num, u "TITLE " ++ title_num ++ u ".—")
  end.

(** ** The output tree *)

(** The elements under the root [USCode]: one [Title] with its [name]
    attribute, its [Chapter] children in document order, each with a [name]
    and its [Section] children, each with a [name] and a text.  The
    white-space that [indent] writes between the elements is left out: it
    touches neither an attribute nor the text of a [Section]. *)
Record Section : Type := mkSection { sec_name : str; sec_text : str }.
Record Chapter : Type := mkChapter { ch_name : str; ch_sections : list Section }.
Record Title : Type := mkTitle { title_name : str; title_chapters : list Chapter }.

(** ** The parser *)

(** The variables of [to_xml_tree] that its loops change: the cursor [i],
    the children of [title_el], and [current_chapter], a reference to one
    of these children, kept as its index. *)
Record pstate : Type := mkState {
  cursor : nat;
  chapters : list Chapter;
  current_chapter : option nat
}.

Definition set_cursor (i : nat) (st : pstate) : pstate :=
  mkState i (chapters st) (current_chapter st).

Definition chapter_name (num name : str) : str :=
  u "Chapter " ++ num ++ u ".—" ++ rstrip_chars (u ".") (strip name) ++ u ".".

Definition start_chapter (num name : str) (st : pstate) : pstate :=
  mkState (cursor st)
          (chapters st ++ [mkChapter (chapter_name num name) []])
          (Some (length (chapters st))).

(** [ET.SubElement(current_chapter, "Section")]: a new last child of the
    chapter at index [k]. *)
Fixpoint append_section (k : nat) (s : Section) (chs : list Chapter)
    : list Chapter :=
  match chs, k with
  | [], _ => []
  | ch :: rest, O => mkChapter (ch_name ch) (ch_sections ch ++ [s]) :: rest
  | ch :: rest, S k' => ch :: append_section k' s rest
  end.

Definition add_section (num title body : str) (st : pstate) : pstate :=
  let st :=
    match current_chapter st with
    | None => start_chapter (u "0") (u "UNSPECIFIED") st
    | Some _ => st
    end in
  let s := mkSection (num ++ u ". " ++ strip title) (strip body) in
  match current_chapter st with
  | Some k => mkState (cursor st) (append_section k s (chapters st)) (Some k)
  | None => st
  end.

Definition is_chapter_head (line : str) : bool :=
  match re_match RE_CHAPTER_HEAD line with Some _ => true | None => false end.

(** The test of the first loop for a table-of-contents row. *)
Definition is_toc_row (line : str) : bool :=
  startswith (lower line) (u "chapter")
  && contains (lower line) (u "sec")
  && negb (is_chapter_head line).

(** The first loop: [rest] is [paras[i:]].  It returns the cursor at which
    the loop leaves, the index of the first chapter header or [len(paras)]. *)
Fixpoint skip_preamble (rest : list str) (i : nat) : nat :=
  match rest with
  | [] => i
  | line :: rest' =>
      if is_toc_row line then skip_preamble rest' (i + 1)
      else if is_chapter_head line then i
      else skip_preamble rest' (i + 1)
  end.

(** The test that ends the body of a section. *)
Definition ends_body (nxt : str) : bool :=
  match re_match RE_CHAPTER_HEAD nxt with
  | Some _ => true
  | None =>
      match re_match RE_SECTION_INLINE nxt with
      | Some _ => true
      | None =>
          match re_match RE_SECTION_HEADER nxt with
          | Some _ => true
          | None => false
          end
      end
  end.

(** The inner loop: [rest] is [paras[j:]].  It returns the final [j] and
    [body_lines]. *)
Fixpoint scan_body (rest : list str) (j : nat) (body_lines : list str)
    : nat * list str :=
  match rest with
  | [] => (j, body_lines)
  | nxt :: rest' =>
      if ends_body nxt then (j, body_lines)
      else scan_body rest' (j + 1) (body_lines ++ [nxt])
  end.

(** One turn of the second loop, taken when [i < len(paras)]. *)
Definition main_step (paras : list str) (st : pstate) : pstate :=
  let i := cursor st in
  let line := nth i paras [] in
  match re_match RE_CHAPTER_HEAD line with
  | Some chm => set_cursor (i + 1) (start_chapter (group 1 chm) (group 2 chm) st)
  | None =>
      match re_match RE_SECTION_INLINE line with
      | Some sm =>
          set_cursor (i + 1)
            (add_section (group 1 sm) (group 2 sm) (group 3 sm) st)
      | None =>
          match re_match RE_SECTION_MULTI line with
          | Some m =>
              let num := group 1 m in
              let sec_title := group 2 m in
              let first_body := group 3 m in
              let body_lines := if nonempty first_body then [first_body] else [] in
              let '(j, body_lines) :=
                scan_body (skipn (i + 1) paras) (i + 1) body_lines in
              set_cursor j
                (add_section num sec_title (join [NEWLINE] body_lines) st)
          | None => set_cursor (i + 1) st
          end
      end
  end.

(** The second loop.  [fuel] bounds the number of turns; [None] means that
    the bound was reached with lines left. *)
Fixpoint main_loop (fuel : nat) (paras : list str) (st : pstate)
    : option pstate :=
  if length paras <=? cursor st then Some st
  else match fuel with
       | O => None
       | S fuel' => main_loop fuel' paras (main_step paras st)
       end.

(** [paras] of [to_xml_tree], from the paragraphs that
    [iter_docx_paragraph_text] yields. *)
Definition paragraphs_of (raw : list str) : list str :=
  map normalize (filter (fun p => nonempty (strip p)) raw).

(** The parse of the normalised lines: both loops. *)
Definition parse (paras : list str) : option (list Chapter) :=
  let i := skip_preamble paras 0 in
  option_map chapters (main_loop (length paras) paras (mkState i [] None)).

(** [to_xml_tree(docx_path)], from [docx_path.stem] and the paragraphs of
    the document; the result is the [Title] element under the root and
    [title_num]. *)
Definition to_xml_tree (stem : str) (raw : list str) : option (Title * str) :=
  let paras := paragraphs_of raw in
  let '(title_num, title_display) := build_title_name stem paras in
  match parse paras with
  | Some chs => Some (mkTitle title_display chs, title_num)
  | None => None
  end.

(** ** Vocabulary of the statements *)

(** The declarative reading of a pattern: [sem p k r] holds when some way
    of taking the items of [p] one after the other leads from the state [k]
    to the state [r].  The matcher [exec] returns the first such [r] in its
    own order of preference. *)
Definition consume_all (s1 s2 : str) (k : cfg) : cfg :=
  Cfg (pos k + length s1) s2 (groups k) (option_map (app (rev s1)) (acc k)).

Fixpoint sem (p : pattern) (k r : cfg) : Prop :=
  match p with
  | [] => r = k
  | Bol :: p' => pos k = 0 /\ sem p' k r
  | Eol :: p' => at_end (inp k) = true /\ sem p' k r
  | Open :: p' => sem p' (open_group k) r
  | Close :: p' => sem p' (close_group k) r
  | One c :: p' =>
      exists x s', inp k = x :: s' /\ c x = true /\ sem p' (consume x s' k) r
  | Opt c :: p' =>
      (exists x s', inp k = x :: s' /\ c x = true /\ sem p' (consume x s' k) r)
      \/ sem p' k r
  | Star c :: p' | LazyStar c :: p' =>
      exists s1 s2,
        inp k = s1 ++ s2 /\ forallb c s1 = true
        /\ sem p' (consume_all s1 s2 k) r
  end.

(** The last character is a period and the one before it, if any, is not. *)
Definition one_final_period (s : str) : bool :=
  match rev s with
  | c :: before =>
      (c =? PERIOD)%N
      && match before with
         | c' :: _ => negb (c' =? PERIOD)%N
         | [] => true
         end
  | [] => false
  end.

(** The lines of [rest] before the first one that satisfies [stop]. *)
Fixpoint take_until (stop : str -> bool) (rest : list str) : list str :=
  match rest with
  | [] => []
  | l :: rest' => if stop l then [] else l :: take_until stop rest'
  end.

Definition head_space (s : str) : bool :=
  match s with c :: _ => is_space c | [] => false end.

(** A line as [normalize] leaves it: no en dash, no white-space at either
    end, and no white-space inside but single spaces. *)
Fixpoint single_spaced (s : str) : bool :=
  match s with
  | [] => true
  | c :: s' =>
      (if is_space c then (c =? SPACE)%N && negb (head_space s') else true)
      && single_spaced s'
  end.

Definition no_en_dash (s : str) : bool :=
  forallb (fun c => negb (c =? EN_DASH)%N) s.

Definition normalized (s : str) : bool :=
  no_en_dash s
  && single_spaced s
  && negb (head_space s) && negb (head_space (rev s)).

Definition all_sections (chs : list Chapter) : list Section :=
  flat_map ch_sections chs.

(** What replacing each run of white-space by one space leaves: [in_run]
    tells that the character before was white-space. *)
Fixpoint squeeze (in_run : bool) (s : str) : str :=
  match s with
  | [] => []
  | c :: s' =>
      if is_space c
      then if in_run then squeeze true s' else SPACE :: squeeze true s'
      else c :: squeeze false s'
  end.

(** The number of white-space characters that [s] starts with. *)
Fixpoint lead_ws (s : str) : nat :=
  match s with
  | c :: s' => if is_space c then S (lead_ws s') else 0
  | [] => 0
  end.

(** Some character of [s] is not white-space. *)
Definition has_ink (s : str) : bool := existsb (fun c => negb (is_space c)) s.

(** The state with its cursor moved [n] lines further. *)
Definition shift (n : nat) (st : pstate) : pstate :=
  mkState (n + cursor st) (chapters st) (current_chapter st).

(** The Chapter names that the chapter-header lines among [ls] give, in
    the order of the lines. *)
Definition header_names (ls : list str) : list str :=
  flat_map
    (fun l =>
       match re_match RE_CHAPTER_HEAD l with
       | Some chm => [chapter_name (group 1 chm) (group 2 chm)]
       | None => []
       end)
    ls.

(** The Chapters so far are those of the chapter-header lines before the
    cursor, and as long as no Chapter is open the cursor is at the end or
    on a chapter header. *)
Definition follows_headers (paras : list str) (st : pstate) : Prop :=
  cursor st <= length paras
  /\ map ch_name (chapters st) = header_names (firstn (cursor st) paras)
  /\ (current_chapter st = None ->
      length paras <= cursor st
      \/ is_chapter_head (nth (cursor st) paras []) = true).

(** The number of groups that a pattern closes. *)
Fixpoint count_groups (p : pattern) : nat :=
  match p with
  | [] => 0
  | Close :: p' => S (count_groups p')
  | _ :: p' => count_groups p'
  end.

(** A line that [paragraphs_of] lets through: normalised and not empty. *)
Definition is_line (s : str) : Prop := normalized s = true /\ s <> [].

(** The file name holds "Title <digits>" with the digits [num]: the word
    "title" in any case, white-space, and the digits. *)
Definition holds_title_number (stem num : str) : Prop :=
  exists before word gap after,
    stem = before ++ word ++ gap ++ num ++ after
    /\ Forall2 (fun x c => is_chr_ci x c = true) (u "title") word
    /\ gap <> [] /\ forallb is_space gap = true
    /\ num <> [] /\ forallb is_digit num = true.

(** ** Scenario D: section-start lines

    A section-start line is "<digits>. <title>—" with nothing after the em
    dash: a number, a period and a space, a title without an em dash, and
    the em dash. *)
Definition section_start (digits title : str) : str :=
  digits ++ u ". " ++ title ++ [EM_DASH].

Definition is_number (d : str) : Prop :=
  d <> [] /\ forallb is_digit d = true.

Definition is_heading (t : str) : Prop :=
  forallb is_any t = true /\ ~ In EM_DASH t.

(** ** Scenario C: a section line with no chapter header before it *)

Definition scenario_C : list str :=
  [u "101. Time of choosing electors— Electors shall be appointed..."].

(** ** Scenario B, further down: a table-of-contents row after a section *)

Definition toc_after_section : list str :=
  [u "Chapter 1.—General."; u "1. Short title—"; u "Chapter   Sec."].

(** ** Scenario D: two section-start lines under a chapter *)

Definition scenario_D : list str :=
  [u "Chapter 1.—General."; u "1. Short title—"; u "2. Definitions—"].

(** A section whose body goes over two lines. *)
Definition two_line_body : list str :=
  [u "Chapter 1.—General."; u "1. Short title—"; u "This Act may be cited";
   u "as the Act."; u "2. Definitions—"].

(** A section whose body starts on its header line and goes on. *)
Definition body_after_inline_text : list str :=
  [u "Chapter 1.—General."; u "1. Short title— This Act may be cited";
   u "as the Act."; u "2. Definitions—"].

(** The state of the second loop after the chapter header of these inputs. *)
Definition after_header : pstate :=
  mkState 1 [mkChapter (u "Chapter 1.—General.") []] (Some 0).

(** ** Scenario A *)

Definition scenario_A : list str :=
  [u "TITLE 3.—The President";
   u "Chapter 1.—Presidential Elections.";
   u "101. Time of choosing electors— Electors shall be appointed..."].

(** ** Reading the paragraphs *)

Definition NBSP : char := 160%N.   (* U+00A0 *)

(** A paragraph of the document as [iter_docx_paragraph_text] sees it: the
    [text] of each [w:t] element that [findall] returns under it, [None]
    for an element that has none.  [paragraph_texts] is the list [texts]:
    the texts that are neither [None] nor empty. *)
Definition paragraph_texts (runs : list (option str)) : list str :=
  flat_map
    (fun t =>
       match t with
       | Some s => if nonempty s then [s] else []
       | None => []
       end)
    runs.

(** What the generator yields for the paragraphs of the document, in their
    order: nothing for a paragraph whose [texts] is empty, and else the
    texts joined, with each no-break space turned into a space, and
    stripped. *)
Definition iter_docx_paragraph_text (doc : list (list (option str)))
    : list str :=
  flat_map
    (fun runs =>
       match paragraph_texts runs with
       | [] => []
       | texts => [strip (replace_char NBSP SPACE (concat texts))]
       end)
    doc.

(** ** The element tree and its indentation *)

(** An [Element] of [xml.etree.ElementTree]: tag, attributes, [text],
    [tail] and children; [text] and [tail] are [None] until they are set. *)
#[warnings="-register-all"]
Inductive Element : Type :=
| mkElement (tag : str) (attrib : list (str * str))
            (text tail : option str) (children : list Element).

Definition el_tag (e : Element) : str :=
  match e with mkElement t _ _ _ _ => t end.
Definition el_attrib (e : Element) : list (str * str) :=
  match e with mkElement _ a _ _ _ => a end.
Definition el_text (e : Element) : option str :=
  match e with mkElement _ _ t _ _ => t end.
Definition el_tail (e : Element) : option str :=
  match e with mkElement _ _ _ t _ => t end.
Definition el_children (e : Element) : list Element :=
  match e with mkElement _ _ _ _ c => c end.

(** [not t or not t.strip()] *)
Definition blank (t : option str) : bool :=
  match t with
  | None => true
  | Some s => negb (nonempty (strip s))
  end.

(** [level * "    "] *)
Fixpoint pad (level : nat) : str :=
  match level with
  | O => []
  | S l => u "    " ++ pad l
  end.

Definition set_tail (t : option str) (e : Element) : Element :=
  mkElement (el_tag e) (el_attrib e) (el_text e) t (el_children e).

(** The statement after the [for] loop of [indent]: [e] is then the last
    child, and its tail is set to [i] when it is blank. *)
Fixpoint fix_last_tail (i : str) (children : list Element) : list Element :=
  match children with
  | [] => []
  | [e] => [if blank (el_tail e) then set_tail (Some i) e else e]
  | e :: rest => e :: fix_last_tail i rest
  end.

(** [indent(elem, level)]; the element is changed in place, the function
    returns it as it is afterwards. *)
Fixpoint indent (level : nat) (elem : Element) : Element :=
  match elem with
  | mkElement tag attrib text tail children =>
      let i := NEWLINE :: pad level in
      let text' :=
        match children with
        | [] => text
        | _ :: _ => if blank text then Some (i ++ u "    ") else text
        end in
      let children' := fix_last_tail i (map (indent (S level)) children) in
      let tail' :=
        if negb (Nat.eqb level 0) && blank tail then Some i else tail in
      mkElement tag attrib text' tail' children'
  end.

(** The elements that [to_xml_tree] makes, before [indent]: [ET.Element]
    and [ET.SubElement] leave [text] and [tail] at [None]; a [Section]
    gets its [text], the others get none. *)
Definition section_element (s : Section) : Element :=
  mkElement (u "Section") [(u "name", sec_name s)] (Some (sec_text s)) None [].

Definition chapter_element (ch : Chapter) : Element :=
  mkElement (u "Chapter") [(u "name", ch_name ch)] None None
            (map section_element (ch_sections ch)).

Definition title_element (t : Title) : Element :=
  mkElement (u "Title") [(u "name", title_name t)] None None
            (map chapter_element (title_chapters t)).

Definition root_element (t : Title) : Element :=
  mkElement (u "USCode") [] None None [title_element t].

(** The root of the tree that [to_xml_tree] returns: [indent(root)]. *)
Definition xml_root (t : Title) : Element := indent 0 (root_element t).

(** ** Vocabulary of the further statements *)

(** The characters of [s] that are not white-space, in their order. *)
Definition ink (s : str) : str := filter (fun c => negb (is_space c)) s.

(** The text of a paragraph: the texts of its [w:t] elements, joined. *)
Definition joined_text (runs : list (option str)) : str :=
  concat (map (fun t => match t with Some s => s | None => [] end) runs).

(** An element without its layout: a [text] or [tail] that is blank counts
    as none. *)
Fixpoint skeleton (e : Element) : Element :=
  match e with
  | mkElement tag attrib text tail children =>
      mkElement tag attrib
                (if blank text then None else text)
                (if blank tail then None else tail)
                (map skeleton children)
  end.

(** Reading the tree back: the [name] attribute and, for a [Section], the
    text. *)
Fixpoint get (key : str) (attrib : list (str * str)) : str :=
  match attrib with
  | [] => []
  | (k, v) :: rest => if str_eqb k key then v else get key rest
  end.

Definition section_of (e : Element) : Section :=
  mkSection (get (u "name") (el_attrib e))
            (match el_text e with Some s => s | None => [] end).

Definition chapter_of (e : Element) : Chapter :=
  mkChapter (get (u "name") (el_attrib e)) (map section_of (el_children e)).

Definition title_of (e : Element) : Title :=
  mkTitle (get (u "name") (el_attrib e)) (map chapter_of (el_children e)).

(** A Section as the parser makes it: a number, a period and a space, and a
    title, with no white-space around the title or around the body. *)
Definition section_shaped (s : Section) : Prop :=
  exists num title,
    sec_name s = num ++ u ". " ++ title
    /\ is_number num
    /\ strip title = title
    /\ strip (sec_text s) = sec_text s.

(** The state with the Chapters [pre] put before its own. *)
Definition add_prefix (pre : list Chapter) (st : pstate) : pstate :=
  mkState (cursor st) (pre ++ chapters st)
          (option_map (Nat.add (length pre)) (current_chapter st)).

(** ** Vocabulary of the statements on the file name *)

Definition head_digit (s : str) : bool :=
  match s with c :: _ => is_digit c | [] => false end.

(** The first "Title <digits>" of the file name has the digits [num]: the
    file name holds the word "title" in any case, white-space and the run
    of digits [num]; the run is whole, no digit follows it; and no word,
    white-space and digits of this kind start further to the left. *)
Definition first_title_number (stem num : str) : Prop :=
  exists before word gap after,
    stem = before ++ word ++ gap ++ num ++ after
    /\ Forall2 (fun x c => is_chr_ci x c = true) (u "title") word
    /\ gap <> [] /\ forallb is_space gap = true
    /\ num <> [] /\ forallb is_digit num = true
    /\ head_digit after = false
    /\ forall before' word' gap' num' after',
         stem = before' ++ word' ++ gap' ++ num' ++ after' ->
         Forall2 (fun x c => is_chr_ci x c = true) (u "title") word' ->
         gap' <> [] -> forallb is_space gap' = true ->
         num' <> [] -> forallb is_digit num' = true ->
         length before <= length before'.

(** ** Vocabulary of the statements on whole parses *)

(** The Chapter that is open is the last child of [title_el]. *)
Definition last_open (st : pstate) : Prop :=
  match current_chapter st with
  | Some k => S k = length (chapters st)
  | None => chapters st = []
  end.

(** No body line is at the front of [rest]: the lines are at their end, or
    the next one ends a body. *)
Definition body_ends_at (rest : list str) : Prop :=
  match rest with [] => True | nxt :: _ => ends_body nxt = true end.

(** The second loop of [to_xml_tree] on [paras] comes to the state [st],
    with a Chapter open: the parse is what the loop makes of [st]. *)
Definition passes_through (paras : list str) (st : pstate) : Prop :=
  last_open st
  /\ current_chapter st <> None
  /\ forall f r, main_loop f paras st = Some r -> parse paras = Some (chapters r).

(** ** Scenario D with no chapter header, and with a line after it *)

Definition section_starts_alone : list str :=
  [u "1. Short title—"; u "2. Definitions—"].

Definition section_starts_then_text : list str :=
  [u "Chapter 1.—General."; u "1. Short title—"; u "2. Definitions—";
   u "In this Act the words have their meaning."].

(** ** Proof steps *)

(** A conjunction of tests that holds, taken apart. *)
Tactic Notation "andb_in" hyp(H) "as" simple_intropattern(p) :=
  apply andb_true_iff in H; destruct H as p.

(** ** The matcher against the declarative reading *)

Section Matcher.

Lemma consume_all_nil k s : inp k = s -> consume_all [] s k = k.
Proof.
  intros <-. destruct k as [n s g a]. unfold consume_all. simpl.
  rewrite Nat.add_0_r. destruct a; reflexivity.
Qed.

Lemma consume_all_cons x s1 s2 s' k :
  consume_all s1 s2 (consume x s' k) = consume_all (x :: s1) s2 k.
Proof.
  destruct k as [n s g a]. unfold consume_all, consume. simpl.
  f_equal; [lia|].
  destruct a; simpl; [|reflexivity].
  now rewrite <- app_assoc.
Qed.

Lemma orelse_some {A} (a b : option A) :
  b <> None -> orelse a b <> None.
Proof. destruct a; simpl; congruence. Qed.

Lemma orelse_inv {A} (a b : option A) r :
  orelse a b = Some r -> a = Some r \/ b = Some r.
Proof. destruct a; simpl; auto. Qed.

Variable c : char -> bool.
Variable rest : cfg -> option cfg.

Lemma star_greedy_sound (Q : cfg -> cfg -> Prop) :
  (forall k r, rest k = Some r -> Q k r) ->
  forall s k r,
    inp k = s ->
    star_greedy c rest s k = Some r ->
    exists s1 s2,
      s = s1 ++ s2 /\ forallb c s1 = true /\ Q (consume_all s1 s2 k) r.
Proof.
  intros HQ s. induction s as [|x s' IH]; intros k r Hk H; simpl in H.
  - exists [], []. repeat split. rewrite consume_all_nil by assumption. auto.
  - destruct (c x) eqn:Hc.
    + apply orelse_inv in H. destruct H as [H|H].
      * apply IH in H; [|reflexivity].
        destruct H as (s1 & s2 & -> & Hall & Hq).
        exists (x :: s1), s2. simpl. rewrite Hc, Hall.
        repeat split. now rewrite <- consume_all_cons with (s' := s1 ++ s2).
      * exists [], (x :: s'). repeat split.
        rewrite consume_all_nil by assumption. auto.
    + exists [], (x :: s'). repeat split.
      rewrite consume_all_nil by assumption. auto.
Qed.

Lemma star_lazy_sound (Q : cfg -> cfg -> Prop) :
  (forall k r, rest k = Some r -> Q k r) ->
  forall s k r,
    inp k = s ->
    star_lazy c rest s k = Some r ->
    exists s1 s2,
      s = s1 ++ s2 /\ forallb c s1 = true /\ Q (consume_all s1 s2 k) r.
Proof.
  intros HQ s. induction s as [|x s' IH]; intros k r Hk H; simpl in H.
  - destruct (rest k) eqn:Hr; [|discriminate]. inversion H; subst.
    exists [], []. repeat split. rewrite consume_all_nil by assumption. auto.
  - destruct (rest k) eqn:Hr.
    + inversion H; subst. exists [], (x :: s'). repeat split.
      rewrite consume_all_nil by assumption. auto.
    + destruct (c x) eqn:Hc; [|discriminate].
      apply IH in H; [|reflexivity].
      destruct H as (s1 & s2 & -> & Hall & Hq).
      exists (x :: s1), s2. simpl. rewrite Hc, Hall.
      repeat split. now rewrite <- consume_all_cons with (s' := s1 ++ s2).
Qed.

Lemma star_greedy_complete s1 :
  forall s2 k,
    inp k = s1 ++ s2 ->
    forallb c s1 = true ->
    rest (consume_all s1 s2 k) <> None ->
    star_greedy c rest (s1 ++ s2) k <> None.
Proof.
  induction s1 as [|x s1 IH]; intros s2 k Hk Hall Hr.
  - simpl in *. rewrite consume_all_nil in Hr by assumption.
    destruct s2 as [|y s2]; simpl; auto.
    destruct (c y); auto. now apply orelse_some.
  - simpl in *. andb_in Hall as [Hx Hall].
    rewrite Hx. rewrite <- consume_all_cons with (s' := s1 ++ s2) in Hr.
    specialize (IH s2 (consume x (s1 ++ s2) k) eq_refl Hall Hr).
    destruct (star_greedy c rest (s1 ++ s2) (consume x (s1 ++ s2) k));
      simpl; congruence.
Qed.

Lemma star_lazy_complete s1 :
  forall s2 k,
    inp k = s1 ++ s2 ->
    forallb c s1 = true ->
    rest (consume_all s1 s2 k) <> None ->
    star_lazy c rest (s1 ++ s2) k <> None.
Proof.
  induction s1 as [|x s1 IH]; intros s2 k Hk Hall Hr.
  - simpl in *. rewrite consume_all_nil in Hr by assumption.
    destruct s2 as [|y s2]; simpl; destruct (rest k); congruence.
  - simpl in *. andb_in Hall as [Hx Hall].
    rewrite Hx. rewrite <- consume_all_cons with (s' := s1 ++ s2) in Hr.
    specialize (IH s2 (consume x (s1 ++ s2) k) eq_refl Hall Hr).
    destruct (rest k); congruence.
Qed.

End Matcher.

(** Whatever [exec] returns is a match in the declarative sense. *)
Lemma exec_sound p : forall k r, exec p k = Some r -> sem p k r.
Proof.
  induction p as [|o p IH]; intros k r H; simpl in *.
  - congruence.
  - destruct o; simpl in *.
    + destruct (Nat.eqb (pos k) 0) eqn:E; [|discriminate].
      apply Nat.eqb_eq in E. auto.
    + destruct (at_end (inp k)) eqn:E; [|discriminate]. auto.
    + auto.
    + auto.
    + destruct (inp k) as [|x s'] eqn:E; [discriminate|].
      destruct (c x) eqn:Hc; [|discriminate].
      exists x, s'. auto.
    + destruct (inp k) as [|x s'] eqn:E; [auto|].
      destruct (c x) eqn:Hc; [|auto].
      apply orelse_inv in H. destruct H as [H|H]; [left|auto].
      exists x, s'. auto.
    + eapply star_greedy_sound with (Q := sem p) in H; eauto.
    + eapply star_lazy_sound with (Q := sem p) in H; eauto.
Qed.

(** Backtracking is exhaustive: where a match exists, [exec] finds one. *)
Lemma exec_complete p : forall k r, sem p k r -> exec p k <> None.
Proof.
  induction p as [|o p IH]; intros k r H; simpl in *.
  - congruence.
  - destruct o; simpl in *.
    + destruct H as [E H]. rewrite E. simpl. eauto.
    + destruct H as [E H]. rewrite E. eauto.
    + eauto.
    + eauto.
    + destruct H as (x & s' & E & Hc & H). rewrite E, Hc. eauto.
    + destruct H as [(x & s' & E & Hc & H)|H].
      * rewrite E, Hc. apply IH in H.
        destruct (exec p (consume x s' k)); simpl; congruence.
      * apply IH in H. destruct (inp k) as [|x s']; auto.
        destruct (c x); auto. now apply orelse_some.
    + destruct H as (s1 & s2 & E & Hall & H). rewrite E.
      apply star_greedy_complete; eauto.
    + destruct H as (s1 & s2 & E & Hall & H). rewrite E.
      apply star_lazy_complete; eauto.
Qed.

Lemma exec_none p k : (forall r, ~ sem p k r) -> exec p k = None.
Proof.
  intros H. destruct (exec p k) as [r|] eqn:E; [|reflexivity].
  apply exec_sound in E. now apply H in E.
Qed.

(** A pattern in two parts matches through a state in the middle. *)
Lemma sem_app p q : forall k r,
  sem (p ++ q) k r <-> exists m, sem p k m /\ sem q m r.
Proof.
  induction p as [|o p IH]; intros k r; simpl.
  - split.
    + intros H. exists k. auto.
    + intros (m & -> & H). exact H.
  - destruct o; simpl.
    + rewrite IH. split.
      * intros (E & m & H1 & H2). exists m. auto.
      * intros (m & (E & H1) & H2). split; [auto|]. exists m. auto.
    + rewrite IH. split.
      * intros (E & m & H1 & H2). exists m. auto.
      * intros (m & (E & H1) & H2). split; [auto|]. exists m. auto.
    + apply IH.
    + apply IH.
    + split.
      * intros (x & s' & E & Hc & H). apply IH in H.
        destruct H as (m & H1 & H2). exists m. split; [|auto].
        exists x, s'. auto.
      * intros (m & (x & s' & E & Hc & H1) & H2).
        exists x, s'. repeat split; auto. apply IH. exists m. auto.
    + split.
      * intros [(x & s' & E & Hc & H)|H]; apply IH in H;
          destruct H as (m & H1 & H2); exists m; (split; [|auto]).
        -- left. exists x, s'. auto.
        -- right. auto.
      * intros (m & [(x & s' & E & Hc & H1)|H1] & H2).
        -- left. exists x, s'. repeat split; auto. apply IH. exists m. auto.
        -- right. apply IH. exists m. auto.
    + split.
      * intros (s1 & s2 & E & Hall & H). apply IH in H.
        destruct H as (m & H1 & H2). exists m. split; [|auto].
        exists s1, s2. auto.
      * intros (m & (s1 & s2 & E & Hall & H1) & H2).
        exists s1, s2. repeat split; auto. apply IH. exists m. auto.
    + split.
      * intros (s1 & s2 & E & Hall & H). apply IH in H.
        destruct H as (m & H1 & H2). exists m. split; [|auto].
        exists s1, s2. auto.
      * intros (m & (s1 & s2 & E & Hall & H1) & H2).
        exists s1, s2. repeat split; auto. apply IH. exists m. auto.
Qed.

(** ** Stripping *)

Lemma lstrip_by_all f a : forallb f a = true -> lstrip_by f a = [].
Proof.
  induction a as [|c a IH]; simpl; [reflexivity|].
  intros H. andb_in H as [-> H]. auto.
Qed.

Lemma lstrip_by_nil_inv f a : lstrip_by f a = [] -> forallb f a = true.
Proof.
  induction a as [|c a IH]; simpl; [reflexivity|].
  destruct (f c); simpl; [auto|discriminate].
Qed.

Lemma lstrip_by_app f a b :
  lstrip_by f (a ++ b)
  = if forallb f a then lstrip_by f b else lstrip_by f a ++ b.
Proof.
  induction a as [|c a IH]; simpl; [reflexivity|].
  destruct (f c); simpl; [exact IH|reflexivity].
Qed.

Lemma lstrip_by_head f s c t : lstrip_by f s = c :: t -> f c = false.
Proof.
  induction s as [|x s IH]; simpl; [discriminate|].
  destruct (f x) eqn:E; [exact IH|].
  intros H. inversion H; subst. exact E.
Qed.

Lemma lstrip_by_id f s :
  match s with c :: _ => f c = false | [] => True end -> lstrip_by f s = s.
Proof. destruct s as [|c s]; simpl; [reflexivity|]. now intros ->. Qed.

Lemma rstrip_by_cons f c s :
  rstrip_by f (c :: s)
  = match rstrip_by f s with
    | [] => if f c then [] else [c]
    | r => c :: r
    end.
Proof.
  unfold rstrip_by. simpl. rewrite lstrip_by_app.
  destruct (forallb f (rev s)) eqn:E.
  - rewrite (lstrip_by_all _ _ E). simpl. destruct (f c); reflexivity.
  - destruct (lstrip_by f (rev s)) as [|x l] eqn:El.
    + apply lstrip_by_nil_inv in El. congruence.
    + rewrite rev_app_distr. simpl.
      destruct (rev l ++ [x]) eqn:Er; [|reflexivity].
      now destruct (rev l).
Qed.

Lemma rstrip_by_id f s :
  match rev s with c :: _ => f c = false | [] => True end ->
  rstrip_by f s = s.
Proof.
  intros H. unfold rstrip_by. rewrite lstrip_by_id by exact H.
  apply rev_involutive.
Qed.

Lemma rstrip_by_prefix f s : exists w, s = rstrip_by f s ++ w /\ forallb f w = true.
Proof.
  induction s as [|c s (w & E & Hw)].
  - exists []. auto.
  - rewrite rstrip_by_cons. destruct (rstrip_by f s) as [|x r] eqn:Er.
    + destruct (f c) eqn:Hc.
      * exists (c :: w). simpl in *. rewrite Hc, Hw. now subst.
      * exists w. simpl in *. now subst.
    + exists w. split; [|exact Hw]. simpl. f_equal. exact E.
Qed.

Lemma lstrip_by_suffix f s : exists w, s = w ++ lstrip_by f s /\ forallb f w = true.
Proof.
  induction s as [|c s (w & E & Hw)].
  - exists []. auto.
  - simpl. destruct (f c) eqn:Hc.
    + exists (c :: w). simpl. rewrite Hc, Hw. now rewrite <- E.
    + exists []. auto.
Qed.

Lemma head_space_lstrip s : head_space (lstrip_by is_space s) = false.
Proof.
  destruct (lstrip_by is_space s) as [|c t] eqn:E; [reflexivity|].
  simpl. eapply lstrip_by_head; eauto.
Qed.

Lemma head_space_rstrip s :
  head_space s = false -> head_space (rstrip_by is_space s) = false.
Proof.
  destruct s as [|c s]; [reflexivity|]. simpl. intros Hc.
  rewrite rstrip_by_cons. rewrite Hc.
  destruct (rstrip_by is_space s); simpl; exact Hc.
Qed.

Lemma strip_head s : head_space (strip s) = false.
Proof. apply head_space_rstrip, head_space_lstrip. Qed.

Lemma strip_last s : head_space (rev (strip s)) = false.
Proof.
  unfold strip, rstrip_by. rewrite rev_involutive. apply head_space_lstrip.
Qed.

Lemma strip_id s :
  head_space s = false -> head_space (rev s) = false -> strip s = s.
Proof.
  intros H1 H2. unfold strip.
  rewrite (lstrip_by_id is_space s) by (destruct s; simpl in *; auto).
  apply rstrip_by_id. destruct (rev s); simpl in *; auto.
Qed.

(** ** The line normaliser *)

Lemma is_space_SPACE : is_space SPACE = true.
Proof. reflexivity. Qed.

Lemma spaces_run s : forall k,
  exists r, star_greedy is_space (fun k => Some k) s k = Some r
            /\ pos r = pos k + lead_ws s.
Proof.
  induction s as [|c s IH]; intros k; simpl.
  - exists k. split; [reflexivity|lia].
  - destruct (is_space c).
    + destruct (IH (consume c s k)) as (r & -> & Hr). exists r.
      split; [reflexivity|]. rewrite Hr. simpl. lia.
    + exists k. split; [reflexivity|lia].
Qed.

Lemma exec_spaces i c s :
  match exec RE_SPACES (Cfg i (c :: s) [] None) with
  | Some r => is_space c = true /\ pos r = S i + lead_ws s
  | None => is_space c = false
  end.
Proof.
  unfold RE_SPACES, plus. simpl. destruct (is_space c); [|reflexivity].
  destruct (spaces_run s (consume c s (Cfg i (c :: s) [] None)))
    as (r & -> & Hr).
  split; [reflexivity|]. rewrite Hr. reflexivity.
Qed.

(** [re.sub] with the pattern of [normalize] squeezes the runs. *)
Lemma sub_spaces s : forall i,
  sub_from RE_SPACES [SPACE] s i (lead_ws s) = squeeze true s
  /\ sub_from RE_SPACES [SPACE] s i 0 = squeeze false s.
Proof.
  induction s as [|c s IH]; intros i; [split; reflexivity|].
  assert (H0 : sub_from RE_SPACES [SPACE] (c :: s) i 0 = squeeze false (c :: s)).
  { cbn [sub_from squeeze]. pose proof (exec_spaces i c s) as H.
    destruct (exec RE_SPACES (Cfg i (c :: s) [] None)) as [r|].
    - destruct H as [Hc Hr]. rewrite Hc, Hr.
      replace (S i + lead_ws s - i) with (S (lead_ws s)) by lia.
      simpl. f_equal. apply IH.
    - rewrite H. f_equal. apply IH. }
  split; [|exact H0].
  cbn [lead_ws]. destruct (is_space c) eqn:Hc.
  - cbn [sub_from squeeze]. rewrite Hc. apply IH.
  - rewrite H0. cbn [squeeze]. rewrite Hc. reflexivity.
Qed.

Lemma normalize_eq s :
  normalize s = strip (squeeze false (replace_char EN_DASH EM_DASH s)).
Proof.
  unfold normalize, re_sub. f_equal.
  apply (sub_spaces (replace_char EN_DASH EM_DASH s) 0).
Qed.

Lemma single_spaced_squeeze s : forall b,
  single_spaced (squeeze b s) = true
  /\ (b = true -> head_space (squeeze b s) = false).
Proof.
  induction s as [|c s IH]; intros b; simpl; [auto|].
  destruct (is_space c) eqn:Hc.
  - destruct b.
    + apply IH.
    + split; [|discriminate]. cbn [single_spaced].
      rewrite is_space_SPACE. destruct (IH true) as [-> ->]; reflexivity.
  - split.
    + cbn [single_spaced]. rewrite Hc. apply IH.
    + intros _. exact Hc.
Qed.

Lemma single_spaced_tail c s : single_spaced (c :: s) = true -> single_spaced s = true.
Proof. simpl. intros H. apply andb_true_iff in H. tauto. Qed.

Lemma single_spaced_lstrip s :
  single_spaced s = true -> single_spaced (lstrip_by is_space s) = true.
Proof.
  induction s as [|c s IH]; [auto|]. intros H. cbn [lstrip_by].
  destruct (is_space c); [|exact H].
  apply IH. eapply single_spaced_tail; eauto.
Qed.

Lemma rstrip_by_head f s x r : rstrip_by f s = x :: r -> exists t, s = x :: t.
Proof.
  destruct s as [|c s]; [discriminate|]. rewrite rstrip_by_cons.
  destruct (rstrip_by f s); [destruct (f c)|]; intros H; inversion H; eauto.
Qed.

Lemma single_spaced_rstrip s :
  single_spaced s = true -> single_spaced (rstrip_by is_space s) = true.
Proof.
  induction s as [|c s IH]; [auto|]. intros H.
  pose proof (single_spaced_tail _ _ H) as Ht. specialize (IH Ht).
  rewrite rstrip_by_cons.
  destruct (rstrip_by is_space s) as [|x r] eqn:Er.
  - destruct (is_space c) eqn:Hc; [reflexivity|]. simpl. now rewrite Hc.
  - apply rstrip_by_head in Er. destruct Er as (t & ->).
    cbn [single_spaced] in *. rewrite IH, andb_true_r.
    andb_in H as [H _]. exact H.
Qed.

Lemma squeeze_id s :
  single_spaced s = true ->
  squeeze false s = s /\ (head_space s = false -> squeeze true s = s).
Proof.
  induction s as [|c s IH]; [auto|]. intros H.
  pose proof (single_spaced_tail _ _ H) as Ht. destruct (IH Ht) as [IH1 IH2].
  cbn [single_spaced squeeze head_space] in *.
  destruct (is_space c) eqn:Hc.
  - andb_in H as [H _].
    andb_in H as [Hs Hh].
    apply N.eqb_eq in Hs. apply negb_true_iff in Hh.
    split; [|discriminate]. rewrite IH2 by exact Hh. now subst.
  - rewrite IH1. auto.
Qed.

Lemma no_en_dash_replace s : no_en_dash (replace_char EN_DASH EM_DASH s) = true.
Proof.
  induction s as [|c s IH]; [reflexivity|]. simpl. rewrite IH, andb_true_r.
  destruct (c =? EN_DASH)%N eqn:E; [reflexivity|]. now rewrite E.
Qed.

Lemma no_en_dash_squeeze s : forall b,
  no_en_dash s = true -> no_en_dash (squeeze b s) = true.
Proof.
  induction s as [|c s IH]; intros b H; [reflexivity|]. simpl in *.
  andb_in H as [Hc H].
  destruct (is_space c); [destruct b|]; simpl; auto.
  rewrite Hc. simpl. auto.
Qed.

Lemma forallb_strip f s : forallb f s = true -> forallb f (strip s) = true.
Proof.
  intros H. unfold strip.
  destruct (lstrip_by_suffix is_space s) as (w & E & _).
  destruct (rstrip_by_prefix is_space (lstrip_by is_space s)) as (w' & E' & _).
  rewrite E, E' in H. rewrite !forallb_app in H.
  andb_in H as [_ H].
  apply andb_true_iff in H. tauto.
Qed.

Lemma replace_char_id s : no_en_dash s = true -> replace_char EN_DASH EM_DASH s = s.
Proof.
  induction s as [|c s IH]; [reflexivity|]. simpl. intros H.
  andb_in H as [Hc H].
  apply negb_true_iff in Hc. rewrite Hc, IH; auto.
Qed.

(** What [normalize] returns is a normalised line, *)
Lemma normalize_normalized s : normalized (normalize s) = true.
Proof.
  rewrite normalize_eq. unfold normalized.
  rewrite strip_head, strip_last. simpl. rewrite !andb_true_r.
  apply andb_true_iff. split.
  - apply forallb_strip, no_en_dash_squeeze, no_en_dash_replace.
  - apply single_spaced_rstrip, single_spaced_lstrip, single_spaced_squeeze.
Qed.

(** and a normalised line is left as it is. *)
Lemma normalize_fixed s : normalized s = true -> normalize s = s.
Proof.
  unfold normalized. intros H.
  andb_in H as [H H4].
  andb_in H as [H H3].
  andb_in H as [H1 H2].
  apply negb_true_iff in H3, H4.
  rewrite normalize_eq, replace_char_id by exact H1.
  destruct (squeeze_id _ H2) as [-> _]. now apply strip_id.
Qed.

(** C8: the normaliser is idempotent: normalising a line that is already
    normalised returns it unchanged. *)
Theorem normalize_idempotent :
  forall s, normalize (normalize s) = normalize s.
Proof. intros s. apply normalize_fixed, normalize_normalized. Qed.

(** ** The cursors of the parser *)

Lemma add_section_some num title body st k :
  current_chapter st = Some k ->
  add_section num title body st
  = mkState (cursor st)
      (append_section k (mkSection (num ++ u ". " ++ strip title) (strip body))
         (chapters st))
      (Some k).
Proof. intros H. unfold add_section. rewrite H. simpl. now rewrite H. Qed.

Lemma add_section_none num title body st :
  current_chapter st = None ->
  add_section num title body st
  = mkState (cursor st)
      (append_section (length (chapters st))
         (mkSection (num ++ u ". " ++ strip title) (strip body))
         (chapters st ++ [mkChapter (chapter_name (u "0") (u "UNSPECIFIED")) []]))
      (Some (length (chapters st))).
Proof. intros H. unfold add_section. rewrite H. reflexivity. Qed.

Lemma cursor_add_section num title body st :
  cursor (add_section num title body st) = cursor st.
Proof.
  destruct (current_chapter st) as [k|] eqn:E.
  - now rewrite (add_section_some _ _ _ _ _ E).
  - now rewrite (add_section_none _ _ _ _ E).
Qed.

Lemma scan_body_bounds rest : forall j body_lines,
  j <= fst (scan_body rest j body_lines) <= j + length rest.
Proof.
  induction rest as [|nxt rest IH]; intros j bl; simpl; [lia|].
  destruct (ends_body nxt); simpl; [lia|].
  specialize (IH (j + 1) (bl ++ [nxt])). lia.
Qed.

Lemma skip_preamble_bounds rest : forall i,
  i <= skip_preamble rest i <= i + length rest.
Proof.
  induction rest as [|line rest IH]; intros i; simpl; [lia|].
  specialize (IH (i + 1)).
  destruct (is_toc_row line); [lia|].
  destruct (is_chapter_head line); lia.
Qed.

Lemma skip_preamble_shift rest : forall i,
  skip_preamble rest i = i + skip_preamble rest 0.
Proof.
  induction rest as [|line rest IH]; intros i; simpl; [lia|].
  rewrite (IH (i + 1)), (IH 1).
  destruct (is_toc_row line); [lia|].
  destruct (is_chapter_head line); lia.
Qed.

Lemma skip_preamble_stops rest :
  length rest <= skip_preamble rest 0
  \/ is_chapter_head (nth (skip_preamble rest 0) rest []) = true.
Proof.
  induction rest as [|line rest IH]; simpl; [left; lia|].
  rewrite (skip_preamble_shift rest 1).
  destruct (is_toc_row line).
  - destruct IH as [IH|IH]; [left; lia|right; exact IH].
  - destruct (is_chapter_head line) eqn:E; [right; exact E|].
    destruct IH as [IH|IH]; [left; lia|right; exact IH].
Qed.

Lemma scan_body_take_until rest : forall j body_lines,
  scan_body rest j body_lines
  = (j + length (take_until ends_body rest),
     body_lines ++ take_until ends_body rest).
Proof.
  induction rest as [|nxt rest IH]; intros j bl; simpl.
  - now rewrite Nat.add_0_r, app_nil_r.
  - destruct (ends_body nxt); simpl.
    + now rewrite Nat.add_0_r, app_nil_r.
    + rewrite IH, <- app_assoc. simpl. f_equal. lia.
Qed.

Lemma take_until_incl stop rest l : In l (take_until stop rest) -> In l rest.
Proof.
  induction rest as [|x rest IH]; simpl; [auto|].
  destruct (stop x); simpl; [tauto|]. intros [H|H]; auto.
Qed.

Lemma take_until_firstn stop rest :
  firstn (length (take_until stop rest)) rest = take_until stop rest.
Proof.
  induction rest as [|x rest IH]; simpl; [reflexivity|].
  destruct (stop x); simpl; [reflexivity|]. now rewrite IH.
Qed.

Lemma take_until_all stop rest :
  Forall (fun l => stop l = false) (take_until stop rest).
Proof.
  induction rest as [|x rest IH]; simpl; [constructor|].
  destruct (stop x) eqn:E; [constructor|]. constructor; auto.
Qed.

Lemma skipn_incl {A} n (l : list A) x : In x (skipn n l) -> In x l.
Proof.
  intros H. rewrite <- (firstn_skipn n l). apply in_or_app. now right.
Qed.

Lemma firstn_succ {A} (l : list A) d : forall n,
  n < length l -> firstn (n + 1) l = firstn n l ++ [nth n l d].
Proof.
  induction l as [|x l IH]; intros n H; simpl in H; [lia|].
  destruct n; simpl; [reflexivity|]. rewrite IH by lia. reflexivity.
Qed.

Lemma firstn_plus {A} (l : list A) : forall n m,
  firstn (n + m) l = firstn n l ++ firstn m (skipn n l).
Proof.
  induction l as [|x l IH]; intros n m.
  - now rewrite !firstn_nil, skipn_nil, firstn_nil.
  - destruct n; simpl; [reflexivity|]. now rewrite IH.
Qed.

(** The four ways through one turn of the second loop. *)
Lemma main_step_cases (P : pstate -> Prop) paras st :
  let i := cursor st in
  let line := nth i paras [] in
  (forall chm,
      re_match RE_CHAPTER_HEAD line = Some chm ->
      P (set_cursor (i + 1) (start_chapter (group 1 chm) (group 2 chm) st))) ->
  (forall sm,
      re_match RE_CHAPTER_HEAD line = None ->
      re_match RE_SECTION_INLINE line = Some sm ->
      P (set_cursor (i + 1)
           (add_section (group 1 sm) (group 2 sm) (group 3 sm) st))) ->
  (forall m,
      re_match RE_CHAPTER_HEAD line = None ->
      re_match RE_SECTION_INLINE line = None ->
      re_match RE_SECTION_MULTI line = Some m ->
      let r := scan_body (skipn (i + 1) paras) (i + 1)
                 (if nonempty (group 3 m) then [group 3 m] else []) in
      P (set_cursor (fst r)
           (add_section (group 1 m) (group 2 m) (join [NEWLINE] (snd r)) st))) ->
  (re_match RE_CHAPTER_HEAD line = None ->
   re_match RE_SECTION_INLINE line = None ->
   re_match RE_SECTION_MULTI line = None ->
   P (set_cursor (i + 1) st)) ->
  P (main_step paras st).
Proof.
  cbv zeta. intros H1 H2 H3 H4. unfold main_step.
  destruct (re_match RE_CHAPTER_HEAD _) as [chm|]; [now apply H1|].
  destruct (re_match RE_SECTION_INLINE _) as [sm|]; [now apply H2|].
  destruct (re_match RE_SECTION_MULTI _) as [m|]; [|now apply H4].
  specialize (H3 m eq_refl eq_refl eq_refl).
  destruct (scan_body _ _ _) as [j bl]. exact H3.
Qed.

Lemma main_step_advances paras st :
  cursor st < length paras ->
  cursor st < cursor (main_step paras st) <= length paras.
Proof.
  intros Hlt. apply main_step_cases; intros; simpl;
    rewrite ?cursor_add_section; simpl; try lia.
  subst r.
  match goal with
  | |- context [scan_body ?a ?b ?c] =>
      pose proof (scan_body_bounds a b c) as Hb
  end.
  rewrite length_skipn in Hb. lia.
Qed.

Lemma main_loop_total paras : forall fuel st,
  length paras - cursor st <= fuel ->
  exists st', main_loop fuel paras st = Some st'.
Proof.
  induction fuel as [|fuel IH]; intros st Hf; simpl.
  - destruct (length paras <=? cursor st) eqn:E; [eauto|].
    apply Nat.leb_gt in E. lia.
  - destruct (length paras <=? cursor st) eqn:E; [eauto|].
    apply Nat.leb_gt in E. apply IH.
    pose proof (main_step_advances paras st E). lia.
Qed.

Lemma parse_total paras : exists chs, parse paras = Some chs.
Proof.
  unfold parse.
  destruct (main_loop_total paras (length paras)
              (mkState (skip_preamble paras 0) [] None)) as (st' & ->);
    simpl; [lia|eauto].
Qed.

Lemma to_xml_tree_eq stem raw chs :
  parse (paragraphs_of raw) = Some chs ->
  to_xml_tree stem raw
  = Some (mkTitle (snd (build_title_name stem (paragraphs_of raw))) chs,
          fst (build_title_name stem (paragraphs_of raw))).
Proof.
  intros H. unfold to_xml_tree.
  destruct (build_title_name stem (paragraphs_of raw)) as [n d].
  now rewrite H.
Qed.

Lemma to_xml_tree_total stem raw : exists t, to_xml_tree stem raw = Some t.
Proof.
  destruct (parse_total (paragraphs_of raw)) as (chs & H).
  rewrite (to_xml_tree_eq stem raw chs H). eauto.
Qed.

(** C9: the parser terminates on every input, and it is one pass: the first
    loop leaves its cursor within the lines, each turn of the second loop
    moves the cursor forward and never past the end, and the scan for the
    body of a section starts one past the current line and only moves
    forward. *)
Theorem parser_terminates :
  (forall stem raw, exists t, to_xml_tree stem raw = Some t)
  /\ (forall paras, skip_preamble paras 0 <= length paras)
  /\ (forall paras st,
         cursor st < length paras ->
         cursor st < cursor (main_step paras st) <= length paras)
  /\ (forall paras st m,
         re_match RE_CHAPTER_HEAD (nth (cursor st) paras []) = None ->
         re_match RE_SECTION_INLINE (nth (cursor st) paras []) = None ->
         re_match RE_SECTION_MULTI (nth (cursor st) paras []) = Some m ->
         exists body_lines,
           cursor (main_step paras st)
           = fst (scan_body (skipn (cursor st + 1) paras) (cursor st + 1)
                    body_lines))
  /\ (forall rest j body_lines,
         j <= fst (scan_body rest j body_lines) <= j + length rest).
Proof.
  split; [exact to_xml_tree_total|].
  split; [intros paras; apply (skip_preamble_bounds paras 0)|].
  split; [exact main_step_advances|].
  split; [|intros; apply scan_body_bounds].
  intros paras st m H1 H2 H3.
  exists (if nonempty (group 3 m) then [group 3 m] else []).
  unfold main_step. rewrite H1, H2, H3.
  destruct (scan_body _ _ _) as [j bl]. reflexivity.
Qed.

(** ** The chapters of the output *)

Lemma main_loop_invariant (Inv : pstate -> Prop) paras :
  (forall st, cursor st < length paras -> Inv st -> Inv (main_step paras st)) ->
  forall fuel st st',
    Inv st -> main_loop fuel paras st = Some st' -> Inv st'.
Proof.
  intros Hstep. induction fuel as [|fuel IH]; intros st st' Hi H; simpl in H.
  - destruct (length paras <=? cursor st); [|discriminate]. congruence.
  - destruct (length paras <=? cursor st) eqn:E; [congruence|].
    apply Nat.leb_gt in E. eapply IH; [|exact H]. auto.
Qed.

Lemma main_loop_exit paras : forall fuel st st',
  main_loop fuel paras st = Some st' -> length paras <= cursor st'.
Proof.
  induction fuel as [|fuel IH]; intros st st' H; simpl in H.
  - destruct (length paras <=? cursor st) eqn:E; [|discriminate].
    apply Nat.leb_le in E. congruence.
  - destruct (length paras <=? cursor st) eqn:E; [|eauto].
    apply Nat.leb_le in E. congruence.
Qed.

Lemma append_section_names k s chs :
  map ch_name (append_section k s chs) = map ch_name chs.
Proof.
  revert k. induction chs as [|ch chs IH]; intros k; [now destruct k|].
  destruct k; simpl; [reflexivity|]. now rewrite IH.
Qed.

Lemma header_names_app a b :
  header_names (a ++ b) = header_names a ++ header_names b.
Proof. apply flat_map_app. Qed.

Lemma header_names_none ls :
  Forall (fun l => is_chapter_head l = false) ls -> header_names ls = [].
Proof.
  induction 1 as [|l ls Hl _ IH]; [reflexivity|].
  unfold header_names in *. simpl. rewrite IH.
  unfold is_chapter_head in Hl.
  now destruct (re_match RE_CHAPTER_HEAD l).
Qed.

Lemma ends_body_chapter_head l : ends_body l = false -> is_chapter_head l = false.
Proof.
  unfold ends_body, is_chapter_head.
  destruct (re_match RE_CHAPTER_HEAD l); [discriminate|reflexivity].
Qed.

Lemma skip_preamble_no_header rest :
  Forall (fun l => is_chapter_head l = false)
    (firstn (skip_preamble rest 0) rest).
Proof.
  induction rest as [|line rest IH]; simpl; [constructor|].
  rewrite (skip_preamble_shift rest 1).
  destruct (is_toc_row line) eqn:Et.
  - simpl. constructor; [|exact IH].
    unfold is_toc_row in Et. apply andb_true_iff in Et.
    destruct Et as [_ Et]. now apply negb_true_iff in Et.
  - destruct (is_chapter_head line) eqn:E; [constructor|].
    simpl. constructor; [exact E|exact IH].
Qed.

Lemma follows_headers_step paras st :
  cursor st < length paras ->
  follows_headers paras st -> follows_headers paras (main_step paras st).
Proof.
  intros Hlt (Hle & Hn & Hc).
  pose proof (main_step_advances paras st Hlt) as Hadv.
  split; [lia|].
  assert (Hopen : re_match RE_CHAPTER_HEAD (nth (cursor st) paras []) = None ->
                  (exists k, current_chapter st = Some k)
                  /\ header_names (firstn (cursor st + 1) paras)
                     = header_names (firstn (cursor st) paras)).
  { intros Hno. split.
    - destruct (current_chapter st) as [k|]; [eauto|].
      destruct (Hc eq_refl) as [H|H]; [lia|].
      unfold is_chapter_head in H. rewrite Hno in H. discriminate.
    - rewrite (firstn_succ paras []) by exact Hlt.
      rewrite header_names_app. unfold header_names at 2. simpl.
      rewrite Hno. now rewrite app_nil_r. }
  revert Hadv. apply main_step_cases; cbv zeta.
  - intros chm H _. split; [|discriminate].
    cbn [set_cursor start_chapter chapters cursor].
    rewrite map_app, Hn, (firstn_succ paras []) by exact Hlt.
    rewrite header_names_app. unfold header_names at 3. simpl.
    now rewrite H.
  - intros sm H _ _. destruct (Hopen H) as ((k & E) & Hh).
    rewrite (add_section_some _ _ _ _ _ E). split; [|discriminate].
    cbn [set_cursor chapters cursor].
    now rewrite append_section_names, Hh.
  - intros m H _ _ _. destruct (Hopen H) as ((k & E) & Hh).
    rewrite (add_section_some _ _ _ _ _ E). split; [|discriminate].
    rewrite scan_body_take_until. cbn [set_cursor chapters cursor fst].
    rewrite append_section_names, firstn_plus, header_names_app, Hh.
    rewrite take_until_firstn, (header_names_none (take_until _ _)).
    + now rewrite app_nil_r.
    + eapply Forall_impl; [|apply take_until_all].
      intros l. apply ends_body_chapter_head.
  - intros H _ _ _. destruct (Hopen H) as ((k & E) & Hh).
    split; [exact (eq_trans Hn (eq_sym Hh))|]. simpl. congruence.
Qed.

(** The Chapters of the output are those that the chapter-header lines
    name, one for each line, in the order of the lines. *)
Lemma parse_chapter_names paras chs :
  parse paras = Some chs -> map ch_name chs = header_names paras.
Proof.
  unfold parse. intros Hp.
  destruct (main_loop _ _ _) as [st'|] eqn:E; [|discriminate].
  simpl in Hp. inversion Hp; subst.
  pose proof (main_loop_exit _ _ _ _ E) as Hexit.
  apply (main_loop_invariant (follows_headers paras) paras) in E.
  - destruct E as (Hle & E & _). rewrite E.
    now rewrite firstn_all2 by exact Hexit.
  - intros. now apply follows_headers_step.
  - split; [apply (skip_preamble_bounds paras 0)|]. split.
    + simpl. symmetry. apply header_names_none, skip_preamble_no_header.
    + intros _. apply skip_preamble_stops.
Qed.

(** ** Chapter names *)

Lemma chapter_name_one_period num name :
  one_final_period (chapter_name num name) = true.
Proof.
  unfold chapter_name, one_final_period, rstrip_chars, rstrip_by.
  change (u ".") with [PERIOD]. change (u ".—") with [PERIOD; EM_DASH].
  rewrite !rev_app_distr, rev_involutive. simpl.
  destruct (lstrip_by _ (rev (strip name))) as [|c t] eqn:E; [reflexivity|].
  apply lstrip_by_head in E. simpl in *.
  rewrite orb_false_r in E. now rewrite E.
Qed.

Lemma header_names_one_period ls :
  Forall (fun n => one_final_period n = true) (header_names ls).
Proof.
  unfold header_names. apply Forall_forall. intros n Hn.
  apply in_flat_map in Hn. destruct Hn as (l & _ & Hn).
  destruct (re_match RE_CHAPTER_HEAD l) as [chm|]; [|destruct Hn].
  destruct Hn as [<-|[]]. apply chapter_name_one_period.
Qed.

(** C3: every line that matches the chapter-header pattern has its
    Chapter in the output, stored under the name "Chapter {num}.—{text}.",
    where {text} is the captured text without surrounding white-space and
    trailing periods; that name ends in exactly one period, and so does the
    name of every Chapter of the output. *)
Theorem chapter_name_one_final_period :
  forall paras line chm,
    In line paras ->
    re_match RE_CHAPTER_HEAD line = Some chm ->
    let name :=
      u "Chapter " ++ group 1 chm ++ u ".—"
      ++ rstrip_chars (u ".") (strip (group 2 chm)) ++ u "." in
    one_final_period name = true
    /\ exists chs,
         parse paras = Some chs
         /\ In name (map ch_name chs)
         /\ Forall (fun ch => one_final_period (ch_name ch) = true) chs.
Proof.
  intros paras line chm Hin Hm name.
  change name with (chapter_name (group 1 chm) (group 2 chm)).
  split; [apply chapter_name_one_period|].
  destruct (parse_total paras) as (chs & Hp). exists chs.
  pose proof (parse_chapter_names paras chs Hp) as Hn.
  split; [exact Hp|]. split.
  - rewrite Hn. unfold header_names. apply in_flat_map.
    exists line. split; [exact Hin|]. rewrite Hm. now left.
  - rewrite <- Forall_map with (f := ch_name)
                              (P := fun n => one_final_period n = true).
    rewrite Hn. apply header_names_one_period.
Qed.

(** ** The title *)

Lemma title_from_paragraphs_none paras :
  Forall (fun p => re_match RE_TITLE_LINE_MIN p = None) paras ->
  title_from_paragraphs paras = None.
Proof.
  induction 1 as [|p paras Hp _ IH]; simpl; [reflexivity|]. now rewrite Hp.
Qed.

Lemma search_from_sound p s : forall i m,
  search_from p s i = Some m ->
  exists before s' r,
    s = before ++ s'
    /\ exec p (Cfg (i + length before) s' [] None) = Some r
    /\ groups r = m.
Proof.
  induction s as [|c s IH]; intros i m H; simpl in H.
  - destruct (exec p (Cfg i [] [] None)) as [r|] eqn:E; [|discriminate].
    inversion H; subst. exists [], [], r. simpl. rewrite Nat.add_0_r. auto.
  - destruct (exec p (Cfg i (c :: s) [] None)) as [r|] eqn:E.
    + inversion H; subst. exists [], (c :: s), r. simpl.
      rewrite Nat.add_0_r. auto.
    + apply IH in H. destruct H as (b & s' & r & -> & H & Hg).
      exists (c :: b), s', r. simpl.
      replace (i + S (length b)) with (S i + length b) by lia. auto.
Qed.

Lemma search_from_complete p before : forall s' i,
  exec p (Cfg (i + length before) s' [] None) <> None ->
  search_from p (before ++ s') i <> None.
Proof.
  induction before as [|c before IH]; intros s' i H; simpl in *.
  - rewrite Nat.add_0_r in H.
    destruct s'; simpl; destruct (exec p _); congruence.
  - destruct (exec p (Cfg i (c :: before ++ s') [] None)); [discriminate|].
    apply IH. now replace (S i + length before) with (i + S (length before))
      by lia.
Qed.

(** What the file name pattern captures: a run of digits that follows the
    word "title", in any case, and white-space. *)
Lemma file_title_digits stem m :
  re_search RE_FILE_TITLE stem = Some m ->
  holds_title_number stem (group 1 m).
Proof.
  intros H. apply search_from_sound in H.
  destruct H as (before & s' & r & -> & H & <-).
  apply exec_sound in H. cbn -[is_digit is_space] in H.
  destruct H as (t1 & s1 & E1 & C1 & t2 & s2 & E2 & C2 & t3 & s3 & E3 & C3
                 & t4 & s4 & E4 & C4 & t5 & s5 & E5 & C5
                 & w1 & s6 & E6 & W1 & ws & s7 & E7 & Ws
                 & d1 & s8 & E8 & D1 & ds & s9 & E9 & Ds & ->).
  cbn in *. subst.
  exists before, [t1; t2; t3; t4; t5], (w1 :: ws), s9.
  rewrite rev_app_distr, rev_involutive. cbn -[is_digit is_space].
  repeat split; try discriminate.
  - repeat constructor; assumption.
  - now rewrite W1.
  - now rewrite D1.
Qed.

(** The search finds such a run whenever the file name holds one. *)
Lemma file_title_found stem d :
  holds_title_number stem d -> re_search RE_FILE_TITLE stem <> None.
Proof.
  intros (before & word & gap & after & -> & Hw & Hg & Hgs & Hd & Hds).
  apply search_from_complete.
  inversion Hw as [|? t1 ? w1 C1 Hw1]; subst.
  inversion Hw1 as [|? t2 ? w2 C2 Hw2]; subst.
  inversion Hw2 as [|? t3 ? w3 C3 Hw3]; subst.
  inversion Hw3 as [|? t4 ? w4 C4 Hw4]; subst.
  inversion Hw4 as [|? t5 ? w5 C5 Hw5]; subst.
  inversion Hw5; subst.
  destruct gap as [|g gap]; [congruence|].
  destruct d as [|x d]; [congruence|].
  simpl in Hgs, Hds.
  andb_in Hgs as [Hg1 Hgs].
  andb_in Hds as [Hx Hds].
  eapply exec_complete. cbn -[is_digit is_space is_chr_ci].
  eexists _, _. split; [reflexivity|]. split; [exact C1|].
  eexists _, _. split; [reflexivity|]. split; [exact C2|].
  eexists _, _. split; [reflexivity|]. split; [exact C3|].
  eexists _, _. split; [reflexivity|]. split; [exact C4|].
  eexists _, _. split; [reflexivity|]. split; [exact C5|].
  eexists _, _. split; [reflexivity|]. split; [exact Hg1|].
  exists gap, (x :: d ++ after). split; [reflexivity|]. split; [exact Hgs|].
  eexists _, _. split; [reflexivity|]. split; [exact Hx|].
  exists d, after. split; [reflexivity|]. split; [exact Hds|].
  reflexivity.
Qed.

Lemma space_values c :
  is_space c = true ->
  (c = 9 \/ c = 10 \/ c = 11 \/ c = 12 \/ c = 13 \/ c = 28 \/ c = 29 \/ c = 30 \/ c = 31 \/ c = 32 \/ c = 133 \/ c = 160 \/ c = 5760 \/ c = 8192 \/ c = 8193 \/ c = 8194 \/ c = 8195 \/ c = 8196 \/ c = 8197 \/ c = 8198 \/ c = 8199 \/ c = 8200 \/ c = 8201 \/ c = 8202 \/ c = 8232 \/ c = 8233 \/ c = 8239 \/ c = 8287 \/ c = 12288)%N.
Proof.
  unfold is_space. intros H.
  repeat match type of H with
         | (_ || _)%bool = true => apply orb_true_iff in H; destruct H as [H|H]
         | (_ && _)%bool = true => apply andb_true_iff in H; destruct H as [? H]
         end;
    repeat match goal with
           | H : (_ <=? _)%N = true |- _ => apply N.leb_le in H
           | H : (_ =? _)%N = true |- _ => apply N.eqb_eq in H
           end; lia.
Qed.

Lemma digit_not_space c : is_digit c = true -> is_space c = false.
Proof.
  intros Hd. destruct (is_space c) eqn:Hs; [|reflexivity].
  apply space_values in Hs.
  repeat (destruct Hs as [Hs|Hs]; [subst c; vm_compute in Hd; discriminate|]).
  subst c; vm_compute in Hd; discriminate.
Qed.

Lemma star_greedy_whole (c : N -> bool) (rest : cfg -> option cfg) run :
  forall tl k r,
    inp k = run ++ tl ->
    forallb c run = true ->
    match tl with [] => True | x :: _ => c x = false end ->
    rest (consume_all run tl k) = Some r ->
    star_greedy c rest (run ++ tl) k = Some r.
Proof.
  induction run as [|x run IH]; intros tl k r Hk Hall Htl Hr.
  - simpl in *. rewrite consume_all_nil in Hr by assumption.
    destruct tl as [|y tl]; simpl; [exact Hr|]. now rewrite Htl.
  - simpl in *. apply andb_true_iff in Hall. destruct Hall as [Hx Hall].
    rewrite Hx. rewrite <- consume_all_cons with (s' := run ++ tl) in Hr.
    now rewrite (IH tl (consume x (run ++ tl) k) r eq_refl Hall Htl Hr).
Qed.

(** The pattern of the file name on the word, white-space and a whole run
    of digits: the group is the run. *)
Lemma exec_file_title i word gap num after :
  Forall2 (fun x c => is_chr_ci x c = true) (u "title") word ->
  gap <> [] -> forallb is_space gap = true ->
  num <> [] -> forallb is_digit num = true ->
  head_digit after = false ->
  exists r,
    exec RE_FILE_TITLE (Cfg i (word ++ gap ++ num ++ after) [] None) = Some r
    /\ groups r = [num].
Proof.
  intros Hw Hg Hgs Hd Hds Ha.
  inversion Hw as [|? t1 ? w1 C1 Hw1]; subst.
  inversion Hw1 as [|? t2 ? w2 C2 Hw2]; subst.
  inversion Hw2 as [|? t3 ? w3 C3 Hw3]; subst.
  inversion Hw3 as [|? t4 ? w4 C4 Hw4]; subst.
  inversion Hw4 as [|? t5 ? w5 C5 Hw5]; subst.
  inversion Hw5; subst.
  destruct gap as [|g gap]; [congruence|].
  destruct num as [|x d]; [congruence|].
  simpl in Hgs, Hds.
  apply andb_true_iff in Hgs. destruct Hgs as [Hg1 Hgs].
  apply andb_true_iff in Hds. destruct Hds as [Hx Hds].
  cbn -[is_digit is_space is_chr_ci star_greedy].
  rewrite C1, C2, C3, C4, C5, Hg1.
  eexists. split.
  - apply star_greedy_whole with (tl := x :: d ++ after);
      [reflexivity|exact Hgs|now apply digit_not_space|].
    cbn -[is_digit is_space is_chr_ci star_greedy]. rewrite Hx.
    apply star_greedy_whole; [reflexivity|exact Hds| |reflexivity].
    destruct after; [exact I|exact Ha].
  - cbn. rewrite rev_app_distr, rev_involutive. reflexivity.
Qed.

Lemma search_from_first p before : forall s' i r,
  (forall j, j < length before ->
             exec p (Cfg (i + j) (skipn j (before ++ s')) [] None) = None) ->
  exec p (Cfg (i + length before) s' [] None) = Some r ->
  search_from p (before ++ s') i = Some (groups r).
Proof.
  induction before as [|c before IH]; intros s' i r Hno Hr; simpl in *.
  - rewrite Nat.add_0_r in Hr. destruct s'; simpl; now rewrite Hr.
  - pose proof (Hno 0 (Nat.lt_0_succ _)) as H0. simpl in H0.
    rewrite Nat.add_0_r in H0. rewrite H0.
    apply IH.
    + intros j Hj. specialize (Hno (S j)). simpl in Hno.
      replace (S i + j) with (i + S j) by lia. apply Hno. lia.
    + now replace (S i + length before) with (i + S (length before)) by lia.
Qed.

(** No match of the pattern starts where no word, white-space and digits
    start. *)
Lemma file_title_sem k r :
  sem RE_FILE_TITLE k r ->
  exists word gap num after,
    inp k = word ++ gap ++ num ++ after
    /\ Forall2 (fun x c => is_chr_ci x c = true) (u "title") word
    /\ gap <> [] /\ forallb is_space gap = true
    /\ num <> [] /\ forallb is_digit num = true.
Proof.
  intros H. cbn -[is_digit is_space] in H.
  destruct H as (t1 & s1 & E1 & C1 & t2 & s2 & E2 & C2 & t3 & s3 & E3 & C3
                 & t4 & s4 & E4 & C4 & t5 & s5 & E5 & C5
                 & w1 & s6 & E6 & W1 & ws & s7 & E7 & Ws
                 & d1 & s8 & E8 & D1 & ds & s9 & E9 & Ds & _).
  cbn in *. subst.
  exists [t1; t2; t3; t4; t5], (w1 :: ws), (d1 :: ds), s9.
  rewrite E1. cbn -[is_digit is_space].
  repeat split; try discriminate.
  - repeat constructor; assumption.
  - now rewrite W1.
  - now rewrite D1.
Qed.

Lemma file_title_first stem num :
  first_title_number stem num ->
  exists m, re_search RE_FILE_TITLE stem = Some m /\ group 1 m = num.
Proof.
  intros (before & word & gap & after & E & Hw & Hg & Hgs & Hd & Hds & Ha
          & Hfirst).
  destruct (exec_file_title (0 + length before) word gap num after
              Hw Hg Hgs Hd Hds Ha) as (r & Hr & Hgr).
  exists (groups r). split; [|now rewrite Hgr].
  subst stem. apply search_from_first; [|exact Hr].
  intros j Hj. apply exec_none. intros r' Hs.
  apply file_title_sem in Hs.
  destruct Hs as (word' & gap' & num' & after' & Ei & Hw' & Hg' & Hgs'
                  & Hd' & Hds').
  cbn [inp] in Ei.
  set (stem := before ++ word ++ gap ++ num ++ after) in *.
  assert (Hlen : j < length stem).
  { unfold stem. rewrite length_app. lia. }
  pose proof (Hfirst (firstn j stem) word' gap' num' after') as H.
  rewrite <- Ei, firstn_skipn in H.
  specialize (H eq_refl Hw' Hg' Hgs' Hd' Hds').
  rewrite length_firstn in H. lia.
Qed.

Lemma search_from_leftmost p s : forall i m,
  search_from p s i = Some m ->
  exists before s' r,
    s = before ++ s'
    /\ exec p (Cfg (i + length before) s' [] None) = Some r
    /\ groups r = m
    /\ forall j, j < length before ->
                 exec p (Cfg (i + j) (skipn j s) [] None) = None.
Proof.
  induction s as [|c s IH]; intros i m H; simpl in H.
  - destruct (exec p (Cfg i [] [] None)) as [r|] eqn:E; [|discriminate].
    inversion H; subst. exists [], [], r. simpl. rewrite Nat.add_0_r.
    repeat split; auto. intros j Hj. lia.
  - destruct (exec p (Cfg i (c :: s) [] None)) as [r|] eqn:E.
    + inversion H; subst. exists [], (c :: s), r. simpl.
      rewrite Nat.add_0_r. repeat split; auto. intros j Hj. lia.
    + apply IH in H. destruct H as (b & s' & r & -> & H & Hg & Hno).
      exists (c :: b), s', r. simpl.
      replace (i + S (length b)) with (S i + length b) by lia.
      repeat split; auto. intros [|j] Hj; simpl.
      * now rewrite Nat.add_0_r.
      * replace (i + S j) with (S i + j) by lia. apply Hno. lia.
Qed.

(** A run of digits goes on to a whole one. *)
Lemma whole_run num after :
  forallb is_digit num = true ->
  exists w after',
    after = w ++ after'
    /\ forallb is_digit (num ++ w) = true
    /\ head_digit after' = false.
Proof.
  intros Hn. destruct (lstrip_by_suffix is_digit after) as (w & E & Hw).
  exists w, (lstrip_by is_digit after). split; [exact E|]. split.
  - now rewrite forallb_app, Hn, Hw.
  - destruct (lstrip_by is_digit after) as [|c t] eqn:El; [reflexivity|].
    simpl. now apply lstrip_by_head in El.
Qed.

Lemma file_title_at i word gap num after :
  Forall2 (fun x c => is_chr_ci x c = true) (u "title") word ->
  gap <> [] -> forallb is_space gap = true ->
  num <> [] -> forallb is_digit num = true ->
  exec RE_FILE_TITLE (Cfg i (word ++ gap ++ num ++ after) [] None) <> None.
Proof.
  intros Hw Hg Hgs Hd Hds.
  destruct (whole_run num after Hds) as (w & after' & -> & Hall & Ha).
  destruct (exec_file_title i word gap (num ++ w) after' Hw Hg Hgs) as (r & Hr & _);
    auto.
  - destruct num; [congruence|discriminate].
  - rewrite <- app_assoc in Hr. congruence.
Qed.

(** A file name that holds "Title <digits>" has a first one. *)
Lemma first_title_number_exists stem d :
  holds_title_number stem d -> exists num, first_title_number stem num.
Proof.
  intros Hd. pose proof (file_title_found stem d Hd) as Hs.
  destruct (re_search RE_FILE_TITLE stem) as [m|] eqn:E; [|congruence].
  apply search_from_leftmost in E.
  destruct E as (before & s' & r & -> & Hr & _ & Hno).
  apply exec_sound, file_title_sem in Hr.
  destruct Hr as (word & gap & num & after & Ei & Hw & Hg & Hgs & Hn & Hns).
  cbn [inp] in Ei. subst s'.
  destruct (whole_run num after Hns) as (w & tl & -> & Hall & Ha).
  exists (num ++ w), before, word, gap, tl.
  split; [now rewrite <- app_assoc|]. split; [exact Hw|].
  split; [exact Hg|]. split; [exact Hgs|].
  split; [destruct num; [congruence|discriminate]|].
  split; [exact Hall|]. split; [exact Ha|].
  intros before' word' gap' num' after' E' Hw' Hg' Hgs' Hn' Hns'.
  destruct (le_lt_dec (length before) (length before')) as [Hle|Hlt];
    [exact Hle|exfalso].
  specialize (Hno _ Hlt). rewrite E' in Hno.
  rewrite skipn_app, skipn_all, Nat.sub_diag in Hno. simpl in Hno.
  revert Hno. now apply file_title_at.
Qed.

(** C6: when no line matches the title-declaration pattern and the file
    name holds "Title <digits>", the tree is built, the Title's number is
    the whole run of digits of the first "Title <digits>" of the file name
    and its display name is "TITLE {num}.—", with no descriptive text. *)
Theorem title_falls_back_on_file_name :
  forall stem raw d,
    Forall (fun p => re_match RE_TITLE_LINE_MIN p = None) (paragraphs_of raw) ->
    first_title_number stem d ->
    exists chs,
      to_xml_tree stem raw = Some (mkTitle (u "TITLE " ++ d ++ u ".—") chs, d).
Proof.
  intros stem raw d Hno Hd.
  destruct (file_title_first stem d Hd) as (m & Hs & Hg).
  destruct (parse_total (paragraphs_of raw)) as (chs & Hp).
  exists chs. rewrite (to_xml_tree_eq stem raw chs Hp). unfold build_title_name.
  rewrite (title_from_paragraphs_none _ Hno), Hs, Hg. reflexivity.
Qed.

(** C10: when no line matches the title-declaration pattern and the file
    name holds no "Title <digits>" either, the tree is still built: the
    Title's number is "?" and its display name is "TITLE ?.—". *)
Theorem title_unknown_number :
  forall stem raw,
    Forall (fun p => re_match RE_TITLE_LINE_MIN p = None) (paragraphs_of raw) ->
    (forall d, ~ holds_title_number stem d) ->
    exists chs,
      to_xml_tree stem raw = Some (mkTitle (u "TITLE ?.—") chs, u "?").
Proof.
  intros stem raw Hno Hs.
  destruct (parse_total (paragraphs_of raw)) as (chs & Hp).
  exists chs. rewrite (to_xml_tree_eq stem raw chs Hp).
  unfold build_title_name. rewrite (title_from_paragraphs_none _ Hno).
  destruct (re_search RE_FILE_TITLE stem) as [m|] eqn:E; [|reflexivity].
  apply file_title_digits in E. now apply Hs in E.
Qed.

(** ** Lines before the first chapter header *)

Lemma skip_preamble_app pre rest : forall i,
  Forall (fun l => is_chapter_head l = false) pre ->
  skip_preamble (pre ++ rest) i = skip_preamble rest (i + length pre).
Proof.
  induction pre as [|line pre IH]; intros i H; simpl.
  - now rewrite Nat.add_0_r.
  - inversion H as [|? ? Hl Hp]; subst. rewrite Hl.
    replace (i + S (length pre)) with (i + 1 + length pre) by lia.
    destruct (is_toc_row line); now apply IH.
Qed.

Lemma scan_body_shift rest n : forall j body_lines,
  scan_body rest (n + j) body_lines
  = (n + fst (scan_body rest j body_lines),
     snd (scan_body rest j body_lines)).
Proof.
  induction rest as [|nxt rest IH]; intros j bl; simpl; [reflexivity|].
  destruct (ends_body nxt); [reflexivity|].
  rewrite <- IH. f_equal. lia.
Qed.

Lemma add_section_shift n num title body st :
  add_section num title body (shift n st)
  = shift n (add_section num title body st).
Proof.
  destruct (current_chapter st) as [k|] eqn:E.
  - rewrite (add_section_some _ _ _ st k E).
    now rewrite (add_section_some _ _ _ (shift n st) k E).
  - rewrite (add_section_none _ _ _ st E).
    now rewrite (add_section_none _ _ _ (shift n st) E).
Qed.

Lemma main_step_shift pre rest st :
  main_step (pre ++ rest) (shift (length pre) st)
  = shift (length pre) (main_step rest st).
Proof.
  unfold main_step. cbn [cursor shift].
  rewrite app_nth2_plus.
  replace (skipn (length pre + cursor st + 1) (pre ++ rest))
    with (skipn (cursor st + 1) rest).
  2:{ rewrite skipn_app. rewrite (skipn_all2 pre) by lia. simpl.
      f_equal. lia. }
  replace (length pre + cursor st + 1) with (length pre + (cursor st + 1))
    by lia.
  destruct (re_match RE_CHAPTER_HEAD _); [reflexivity|].
  destruct (re_match RE_SECTION_INLINE _).
  { change (mkState (length pre + cursor st) (chapters st) (current_chapter st))
      with (shift (length pre) st).
    now rewrite add_section_shift. }
  destruct (re_match RE_SECTION_MULTI _) as [m|]; [|reflexivity].
  rewrite scan_body_shift.
  destruct (scan_body _ (cursor st + 1) _) as [j bl]. cbn [fst snd].
  change (mkState (length pre + cursor st) (chapters st) (current_chapter st))
    with (shift (length pre) st).
  now rewrite add_section_shift.
Qed.

Lemma main_loop_shift pre rest : forall fuel st,
  main_loop fuel (pre ++ rest) (shift (length pre) st)
  = option_map (shift (length pre)) (main_loop fuel rest st).
Proof.
  induction fuel as [|fuel IH]; intros st; simpl; rewrite length_app.
  - destruct (length rest <=? cursor st) eqn:E.
    + apply Nat.leb_le in E.
      replace (length pre + length rest <=? length pre + cursor st) with true
        by (symmetry; apply Nat.leb_le; lia).
      reflexivity.
    + apply Nat.leb_gt in E.
      replace (length pre + length rest <=? length pre + cursor st) with false
        by (symmetry; apply Nat.leb_gt; lia).
      reflexivity.
  - destruct (length rest <=? cursor st) eqn:E.
    + apply Nat.leb_le in E.
      replace (length pre + length rest <=? length pre + cursor st) with true
        by (symmetry; apply Nat.leb_le; lia).
      reflexivity.
    + apply Nat.leb_gt in E.
      replace (length pre + length rest <=? length pre + cursor st) with false
        by (symmetry; apply Nat.leb_gt; lia).
      change (mkState (length pre + cursor st) (chapters st)
                (current_chapter st)) with (shift (length pre) st).
      rewrite main_step_shift. apply IH.
Qed.

Lemma main_loop_more_fuel paras : forall fuel fuel' st st',
  main_loop fuel paras st = Some st' ->
  fuel <= fuel' ->
  main_loop fuel' paras st = Some st'.
Proof.
  induction fuel as [|fuel IH]; intros fuel' st st' H Hle; simpl in H.
  - destruct fuel'; simpl; destruct (length paras <=? cursor st);
      congruence.
  - destruct fuel' as [|fuel']; [lia|]. simpl.
    destruct (length paras <=? cursor st); [exact H|].
    apply IH with (fuel' := fuel') in H; [exact H|lia].
Qed.

(** The lines before the first chapter header leave no trace in the
    chapters of the output. *)
Lemma parse_skips_preamble pre rest :
  Forall (fun l => is_chapter_head l = false) pre ->
  parse (pre ++ rest) = parse rest.
Proof.
  intros H. unfold parse.
  rewrite (skip_preamble_app pre rest 0 H). simpl.
  rewrite (skip_preamble_shift rest (length pre)).
  change (mkState (length pre + skip_preamble rest 0) [] None)
    with (shift (length pre) (mkState (skip_preamble rest 0) [] None)).
  rewrite main_loop_shift.
  destruct (main_loop_total rest (length rest)
              (mkState (skip_preamble rest 0) [] None)) as (st' & E);
    [simpl; lia|].
  rewrite E.
  rewrite (main_loop_more_fuel rest (length rest) (length (pre ++ rest)) _ st' E)
    by (rewrite length_app; lia).
  reflexivity.
Qed.

(** C1, as the code has it: [add_section] makes the Chapter
    "Chapter 0.—UNSPECIFIED." when no Chapter is open, but the parser never
    calls it so.  The first loop passes over every line before the first
    chapter header, section lines included, so these lines leave nothing in
    the output; an input without a chapter header gives no Chapter at all;
    and the Chapters of the output are those that the chapter-header lines
    name, one for each, in their order. *)
Theorem section_before_first_chapter_header :
  (forall num title body st,
      current_chapter st = None ->
      chapters st = [] ->
      chapters (add_section num title body st)
      = [mkChapter (u "Chapter 0.—UNSPECIFIED.")
           [mkSection (num ++ u ". " ++ strip title) (strip body)]])
  /\ (forall pre rest,
         Forall (fun l => is_chapter_head l = false) pre ->
         parse (pre ++ rest) = parse rest)
  /\ (forall paras,
         Forall (fun l => is_chapter_head l = false) paras ->
         parse paras = Some [])
  /\ (forall paras chs,
         parse paras = Some chs ->
         map ch_name chs = header_names paras).
Proof.
  split; [|split; [|split]].
  - intros num title body st Hc Hn.
    rewrite (add_section_none _ _ _ _ Hc). rewrite Hn. reflexivity.
  - exact parse_skips_preamble.
  - intros paras H. rewrite <- (app_nil_r paras).
    rewrite (parse_skips_preamble paras [] H). reflexivity.
  - exact parse_chapter_names.
Qed.

(** C1 as it is worded fails on the code: the only line of scenario C is a
    section line, and the tree has no Chapter for it. *)
Lemma scenario_C_has_no_chapter :
  re_match RE_SECTION_INLINE
    (u "101. Time of choosing electors— Electors shall be appointed...")
  <> None
  /\ to_xml_tree (u "Title 3") scenario_C
     = Some (mkTitle (u "TITLE 3.—") [], u "3")
  /\ ~ (exists t n ch,
           to_xml_tree (u "Title 3") scenario_C = Some (t, n)
           /\ In ch (title_chapters t)
           /\ ch_name ch = u "Chapter 0.—UNSPECIFIED.").
Proof.
  assert (E : to_xml_tree (u "Title 3") scenario_C
              = Some (mkTitle (u "TITLE 3.—") [], u "3"))
    by (vm_compute; reflexivity).
  split; [vm_compute; discriminate|]. split; [exact E|].
  intros (t & n & ch & H & Hin & _). rewrite E in H.
  inversion H; subst. destruct Hin.
Qed.

(** ** Table-of-contents rows *)

Lemma startswith_head s p q : startswith s (p :: q) = true ->
  exists s', s = p :: s'.
Proof.
  destruct s as [|c s]; simpl; [discriminate|]. intros H.
  andb_in H as [H _].
  apply N.eqb_eq in H. subst. eauto.
Qed.

Lemma lower_char_c c : lower_char c = 99%N -> c = 99%N \/ c = 67%N.
Proof.
  unfold lower_char.
  destruct ((65 <=? c) && (c <=? 90))%N eqn:E; intros H; [right|left]; lia.
Qed.

(** A line that starts with "chapter", in any case, starts with no digit. *)
Lemma chapter_word_no_digit line :
  startswith (lower line) (u "chapter") = true ->
  exists c s, line = c :: s /\ is_digit c = false.
Proof.
  intros H. change (u "chapter") with (99%N :: u "hapter") in H.
  apply startswith_head in H. destruct H as (s' & H).
  destruct line as [|c s]; [discriminate|]. simpl in H.
  inversion H as [[Hc Hs]]. exists c, s. split; [reflexivity|].
  destruct (lower_char_c c Hc); subst; reflexivity.
Qed.

(** None of the three section patterns matches a line that starts with no
    digit. *)
Lemma no_digit_no_section c s :
  is_digit c = false ->
  re_match RE_SECTION_INLINE (c :: s) = None
  /\ re_match RE_SECTION_MULTI (c :: s) = None
  /\ re_match RE_SECTION_HEADER (c :: s) = None.
Proof.
  intros H. unfold re_match.
  repeat split; cbn -[is_digit]; now rewrite H.
Qed.

(** C2, as the code has it: a line that starts with "chapter", holds "sec"
    and is no chapter header creates no Chapter and no Section; the first
    loop passes over it and so does the second loop, leaving the tree as it
    is; but it does not end the body of a section, so the scan for the body
    of a section takes it as a body line. *)
Theorem toc_row_is_passed_over :
  forall line,
    startswith (lower line) (u "chapter") = true ->
    contains (lower line) (u "sec") = true ->
    re_match RE_CHAPTER_HEAD line = None ->
    (forall rest i, skip_preamble (line :: rest) i = skip_preamble rest (i + 1))
    /\ (forall paras st,
           nth (cursor st) paras [] = line ->
           main_step paras st = set_cursor (cursor st + 1) st)
    /\ ends_body line = false
    /\ (forall rest j body_lines,
           scan_body (line :: rest) j body_lines
           = scan_body rest (j + 1) (body_lines ++ [line])).
Proof.
  intros line Hs Hc Hn.
  destruct (chapter_word_no_digit line Hs) as (c & s & -> & Hd).
  destruct (no_digit_no_section c s Hd) as (H1 & H2 & H3).
  assert (He : ends_body (c :: s) = false).
  { unfold ends_body. now rewrite Hn, H1, H3. }
  repeat split.
  - intros rest i. cbn [skip_preamble]. unfold is_toc_row, is_chapter_head.
    rewrite Hs, Hc, Hn. reflexivity.
  - intros paras st E. unfold main_step. rewrite E, Hn, H1, H2. reflexivity.
  - exact He.
  - intros rest j bl. cbn [scan_body]. now rewrite He.
Qed.

(** C2 as it is worded fails on the code: after a section header that ends
    at its em dash, the row "Chapter Sec." becomes the body of the
    section. *)
Lemma toc_row_kept_in_body :
  startswith (lower (u "Chapter Sec.")) (u "chapter") = true
  /\ contains (lower (u "Chapter Sec.")) (u "sec") = true
  /\ re_match RE_CHAPTER_HEAD (u "Chapter Sec.") = None
  /\ paragraphs_of toc_after_section
     = [u "Chapter 1.—General."; u "1. Short title—"; u "Chapter Sec."]
  /\ to_xml_tree (u "Title 1") toc_after_section
     = Some (mkTitle (u "TITLE 1.—")
               [mkChapter (u "Chapter 1.—General.")
                  [mkSection (u "1. Short title") (u "Chapter Sec.")]],
             u "1").
Proof. repeat split; vm_compute; reflexivity. Qed.

(** ** The two section patterns *)

Lemma sem_groups_length p : forall k r,
  sem p k r -> length (groups r) = length (groups k) + count_groups p.
Proof.
  induction p as [|o p IH]; intros k r H; simpl in H.
  - subst. simpl. lia.
  - destruct o; simpl.
    + destruct H as [_ H]. now apply IH in H.
    + destruct H as [_ H]. now apply IH in H.
    + now apply IH in H.
    + apply IH in H. simpl in H. rewrite length_app in H. simpl in H. lia.
    + destruct H as (x & s' & _ & _ & H). now apply IH in H.
    + destruct H as [(x & s' & _ & _ & H)|H]; now apply IH in H.
    + destruct H as (s1 & s2 & _ & _ & H). now apply IH in H.
    + destruct H as (s1 & s2 & _ & _ & H). now apply IH in H.
Qed.

(** When the inline pattern fails and the pattern with ".*" matches, the
    third group is empty: a text after the em dash would have made the
    inline pattern match. *)
Lemma multi_first_body_empty line m :
  re_match RE_SECTION_INLINE line = None ->
  re_match RE_SECTION_MULTI line = Some m ->
  group 3 m = [] /\ length m = 3.
Proof.
  unfold re_match. intros Hi Hm.
  destruct (exec RE_SECTION_MULTI (Cfg 0 line [] None)) as [r|] eqn:E;
    [|discriminate].
  simpl in Hm. inversion Hm; subst m. clear Hm.
  apply exec_sound in E. unfold RE_SECTION_MULTI in E.
  apply sem_app in E. destruct E as (mid & Hp & Ht).
  pose proof (sem_groups_length _ _ _ Hp) as Hlen.
  cbn in Hlen. cbn -[is_any] in Ht.
  destruct Ht as (s1 & s2 & Es & Hall & Hend & ->).
  cbn [groups close_group consume_all open_group acc option_map].
  rewrite app_nil_r, rev_involutive.
  destruct s1 as [|x s1].
  - split; [|rewrite length_app; simpl; lia].
    unfold group. rewrite app_nth2 by lia.
    replace (3 - 1 - length (groups mid)) with 0 by lia. reflexivity.
  - exfalso. simpl in Hall. apply andb_true_iff in Hall.
    destruct Hall as [Hx Hall].
    destruct (exec RE_SECTION_INLINE (Cfg 0 line [] None)) eqn:E;
      [discriminate|].
    revert E. eapply exec_complete. unfold RE_SECTION_INLINE.
    apply sem_app. exists mid. split; [exact Hp|].
    cbn -[is_any]. exists x, (s1 ++ s2). repeat split; auto.
    exists s1, s2. repeat split; auto.
Qed.

(** ** Bodies that go over several lines *)

Lemma all_no_ink s : forallb is_space s = true -> has_ink s = false.
Proof.
  induction s as [|c s IH]; simpl; [reflexivity|]. intros H.
  andb_in H as [-> H]. auto.
Qed.

Lemma has_ink_app a b : has_ink (a ++ b) = has_ink a || has_ink b.
Proof. apply existsb_app. Qed.

Lemma has_ink_strip s : has_ink (strip s) = has_ink s.
Proof.
  unfold strip.
  destruct (lstrip_by_suffix is_space s) as (w & E & Hw).
  destruct (rstrip_by_prefix is_space (lstrip_by is_space s)) as (w' & E' & Hw').
  rewrite E at 2. rewrite E' at 2. rewrite !has_ink_app.
  rewrite (all_no_ink _ Hw), (all_no_ink _ Hw'). simpl.
  now rewrite orb_false_r.
Qed.

Lemma nonempty_ink s : nonempty s = true -> head_space s = false -> has_ink s = true.
Proof. destruct s as [|c s]; simpl; [discriminate|]. now intros _ ->. Qed.

Lemma ink_nonempty s : has_ink s = true -> s <> [].
Proof. destruct s; [discriminate|discriminate]. Qed.

Lemma has_ink_replace s : has_ink (replace_char EN_DASH EM_DASH s) = has_ink s.
Proof.
  induction s as [|c s IH]; simpl; [reflexivity|]. rewrite IH. f_equal.
  destruct (c =? EN_DASH)%N eqn:E; [|reflexivity].
  apply N.eqb_eq in E. now subst.
Qed.

Lemma has_ink_squeeze s : forall b, has_ink (squeeze b s) = has_ink s.
Proof.
  induction s as [|c s IH]; intros b; simpl; [reflexivity|].
  destruct (is_space c) eqn:Hc; simpl.
  - destruct b; simpl; apply IH.
  - now rewrite Hc.
Qed.

(** The lines of [to_xml_tree] are normalised and none is empty. *)
Lemma paragraphs_of_lines raw : Forall is_line (paragraphs_of raw).
Proof.
  unfold paragraphs_of. apply Forall_forall. intros l Hl.
  apply in_map_iff in Hl. destruct Hl as (p & <- & Hp).
  apply filter_In in Hp. destruct Hp as [_ Hp]. split.
  - apply normalize_normalized.
  - apply ink_nonempty. rewrite normalize_eq, has_ink_strip, has_ink_squeeze,
      has_ink_replace, <- has_ink_strip.
    apply nonempty_ink; [exact Hp|apply strip_head].
Qed.

Lemma is_line_ends l :
  is_line l -> l <> [] /\ head_space l = false /\ head_space (rev l) = false.
Proof.
  intros [H Hn]. unfold normalized in H.
  andb_in H as [H H4].
  andb_in H as [_ H3].
  apply negb_true_iff in H3, H4. auto.
Qed.

Lemma head_space_app a b : a <> [] -> head_space (a ++ b) = head_space a.
Proof. destruct a; [congruence|reflexivity]. Qed.

Lemma join_lines_ends lines :
  Forall is_line lines -> lines <> [] ->
  join [NEWLINE] lines <> []
  /\ head_space (join [NEWLINE] lines) = false
  /\ head_space (rev (join [NEWLINE] lines)) = false.
Proof.
  induction 1 as [|l lines Hl Hls IH]; [congruence|]. intros _.
  apply is_line_ends in Hl. destruct Hl as (Hn & Hh & Ht).
  destruct lines as [|l' lines]; [simpl; auto|].
  destruct IH as (In & Ih & It); [discriminate|].
  change (join [NEWLINE] (l :: l' :: lines))
    with (l ++ [NEWLINE] ++ join [NEWLINE] (l' :: lines)).
  repeat split.
  - destruct l; [congruence|discriminate].
  - now rewrite head_space_app.
  - rewrite !rev_app_distr, <- app_assoc. rewrite head_space_app; [exact It|].
    intros E. apply (f_equal (@rev N)) in E. rewrite rev_involutive in E.
    now apply In.
Qed.

(** Stripping the joined body lines changes nothing. *)
Lemma strip_join_lines lines :
  Forall is_line lines ->
  strip (join [NEWLINE] lines) = join [NEWLINE] lines.
Proof.
  intros H. destruct lines as [|l lines]; [reflexivity|].
  destruct (join_lines_ends (l :: lines) H) as (_ & Hh & Ht); [discriminate|].
  now apply strip_id.
Qed.

Lemma length_append_section k s chs :
  length (append_section k s chs) = length chs.
Proof.
  revert k. induction chs as [|ch chs IH]; intros k; [now destruct k|].
  destruct k; simpl; [reflexivity|]. now rewrite IH.
Qed.

(** C4: the code at a section whose body starts on its header line and
    goes on in the next line.  The inline branch completes the section
    from the header line alone: the body stored is the text after the em
    dash, and the line that continues the body is passed over and belongs
    to no Section, where the claim has the two lines joined by a line
    feed. *)
Lemma lines_after_inline_text_are_dropped :
  paragraphs_of body_after_inline_text = body_after_inline_text
  /\ ends_body (u "as the Act.") = false
  /\ to_xml_tree (u "Title 1") body_after_inline_text
     = Some (mkTitle (u "TITLE 1.—")
               [mkChapter (u "Chapter 1.—General.")
                  [mkSection (u "1. Short title") (u "This Act may be cited");
                   mkSection (u "2. Definitions") []]],
             u "1")
  /\ u "This Act may be cited"
     <> join [NEWLINE] [u "This Act may be cited"; u "as the Act."].
Proof.
  split; [vm_compute; reflexivity|].
  split; [vm_compute; reflexivity|].
  split; [vm_compute; reflexivity|].
  vm_compute. discriminate.
Qed.

(** ** Section-start lines *)

Lemma span_unique (f : N -> bool) a : forall a' c c' b b',
  forallb f a = true -> forallb f a' = true ->
  f c = false -> f c' = false ->
  a ++ c :: b = a' ++ c' :: b' ->
  a = a' /\ c = c' /\ b = b'.
Proof.
  induction a as [|x a IH]; intros a' c c' b b' Ha Ha' Hc Hc' E.
  - destruct a' as [|y a']; simpl in *.
    + inversion E. auto.
    + inversion E; subst. apply andb_true_iff in Ha'. destruct Ha'. congruence.
  - destruct a' as [|y a']; simpl in *.
    + inversion E; subst. apply andb_true_iff in Ha. destruct Ha. congruence.
    + inversion E; subst.
      apply andb_true_iff in Ha. apply andb_true_iff in Ha'.
      destruct Ha as [_ Ha]. destruct Ha' as [_ Ha'].
      destruct (IH a' c c' b b' Ha Ha' Hc Hc' H1) as (-> & -> & ->). auto.
Qed.

Lemma only_at_end (e : N) a : forall b c,
  ~ In e a -> a ++ [e] = b ++ e :: c -> a = b /\ c = [].
Proof.
  induction a as [|x a IH]; intros b c Hn E.
  - destruct b as [|y b]; simpl in E.
    + inversion E. auto.
    + inversion E. destruct b; discriminate.
  - destruct b as [|y b]; simpl in E.
    + inversion E; subst. exfalso. apply Hn. now left.
    + inversion E; subst.
      destruct (IH b c) as (-> & ->); auto.
      intros H. apply Hn. now right.
Qed.

Lemma forallb_rev_true (f : N -> bool) s :
  forallb f s = true -> forallb f (rev s) = true.
Proof.
  intros H. apply forallb_forall. intros x Hx. apply in_rev in Hx.
  rewrite forallb_forall in H. auto.
Qed.

Lemma strip_pad w1 g w2 :
  forallb is_space w1 = true -> forallb is_space w2 = true ->
  strip (w1 ++ g ++ w2) = strip g.
Proof.
  intros H1 H2. unfold strip. rewrite lstrip_by_app, H1.
  rewrite lstrip_by_app. destruct (forallb is_space g) eqn:Hg.
  - rewrite (lstrip_by_all _ _ H2), (lstrip_by_all _ _ Hg). reflexivity.
  - unfold rstrip_by. rewrite rev_app_distr, lstrip_by_app.
    now rewrite (forallb_rev_true _ _ H2).
Qed.

Lemma digit_not_c c : is_digit c = true -> is_chr_ci 99%N c = false.
Proof.
  intros H. destruct (is_chr_ci 99%N c) eqn:E; [|reflexivity].
  unfold is_chr_ci in E. simpl in E. rewrite orb_false_r in E.
  apply orb_true_iff in E. destruct E as [E|E]; apply N.eqb_eq in E; subst;
    vm_compute in H; discriminate.
Qed.

Lemma number_not_chapter_head c s :
  is_digit c = true -> re_match RE_CHAPTER_HEAD (c :: s) = None.
Proof.
  intros H. unfold re_match. cbn -[is_chr_ci].
  now rewrite (digit_not_c c H).
Qed.

Lemma in_em_dash t : ~ In EM_DASH t -> ~ In EM_DASH (SPACE :: t).
Proof. intros Ht [H|H]; [discriminate|auto]. Qed.

(** How the shared prefix of the section patterns reads a section-start
    line: it takes the whole line, the number as the first group and the
    title, up to white-space around it, as the second. *)
Lemma section_prefix_on_start d t mid :
  is_number d -> is_heading t ->
  sem SECTION_PREFIX (Cfg 0 (section_start d t) [] None) mid ->
  inp mid = []
  /\ exists g2, groups mid = [d; g2] /\ strip g2 = strip t.
Proof.
  intros [Hd Hdd] [Ht Hte] H. cbn -[is_digit is_space is_any] in H.
  destruct H as (_ & x & s1 & E1 & D1 & ds & s2 & E2 & Dds
                 & p & s3 & E3 & P & w1 & s4 & E4 & W1
                 & y & s5 & E5 & Y & g & s6 & E6 & G
                 & w2 & s7 & E7 & W2 & e & s8 & E8 & Ee
                 & w3 & s9 & E9 & W3 & ->).
  cbn in E2, E3, E4, E5, E6, E7, E8, E9. subst.
  apply N.eqb_eq in P, Ee. subst.
  unfold section_start in E1. change (u ". ") with [PERIOD; SPACE] in E1.
  change (d ++ [PERIOD; SPACE] ++ t ++ [EM_DASH])
    with (d ++ PERIOD :: (SPACE :: t) ++ [EM_DASH]) in E1.
  change (x :: ds ++ 46%N :: w1 ++ y :: g ++ w2 ++ 8212%N :: w3 ++ s9)
    with ((x :: ds) ++ PERIOD :: w1 ++ (y :: g) ++ w2 ++ EM_DASH :: w3 ++ s9)
    in E1.
  apply span_unique with (f := is_digit) in E1; auto;
    [|simpl; now rewrite D1].
  destruct E1 as (-> & _ & E1).
  rewrite !app_assoc in E1. apply only_at_end in E1;
    [|now apply in_em_dash].
  destruct E1 as [E1 E2]. apply app_eq_nil in E2. destruct E2 as [-> ->].
  split; [reflexivity|]. exists (y :: g). split.
  - cbn. rewrite !rev_app_distr, !rev_involutive. reflexivity.
  - rewrite <- (strip_pad w1 (y :: g) w2 W1 W2).
    rewrite <- app_assoc in E1. rewrite <- E1.
    unfold strip. reflexivity.
Qed.

Lemma section_start_sem d t :
  is_number d -> is_heading t ->
  exists mid,
    sem SECTION_PREFIX (Cfg 0 (section_start d t) [] None) mid
    /\ inp mid = [].
Proof.
  intros [Hd Hdd] [Ht Hte]. destruct d as [|x ds]; [congruence|].
  simpl in Hdd. andb_in Hdd as [Hx Hds].
  eexists. split.
  - cbn -[is_digit is_space is_any]. split; [reflexivity|].
    exists x, (ds ++ u ". " ++ t ++ [EM_DASH]). repeat split; auto.
    exists ds, (u ". " ++ t ++ [EM_DASH]). repeat split; auto.
    exists PERIOD, (SPACE :: t ++ [EM_DASH]). repeat split; auto.
    exists [], (SPACE :: t ++ [EM_DASH]). repeat split; auto.
    exists SPACE, (t ++ [EM_DASH]). repeat split; auto.
    exists t, [EM_DASH]. repeat split; auto.
    exists [], [EM_DASH]. repeat split; auto.
    exists EM_DASH, []. repeat split; auto.
    exists [], []. repeat split; auto.
  - reflexivity.
Qed.

Lemma section_start_not_inline d t :
  is_number d -> is_heading t ->
  re_match RE_SECTION_INLINE (section_start d t) = None.
Proof.
  intros Hd Ht. unfold re_match.
  rewrite exec_none; [reflexivity|].
  intros r H. unfold RE_SECTION_INLINE in H. apply sem_app in H.
  destruct H as (mid & Hp & Hr).
  apply section_prefix_on_start in Hp; auto. destruct Hp as [Hi _].
  cbn -[is_any] in Hr. destruct Hr as (x & s' & E & _). congruence.
Qed.

Lemma section_start_multi d t :
  is_number d -> is_heading t ->
  exists g2,
    re_match RE_SECTION_MULTI (section_start d t) = Some [d; g2; []]
    /\ strip g2 = strip t.
Proof.
  intros Hd Ht. unfold re_match.
  destruct (exec RE_SECTION_MULTI (Cfg 0 (section_start d t) [] None))
    as [r|] eqn:E.
  - apply exec_sound in E. unfold RE_SECTION_MULTI in E. apply sem_app in E.
    destruct E as (mid & Hp & Hr).
    apply section_prefix_on_start in Hp; auto.
    destruct Hp as (Hi & g2 & Hg & Hs). exists g2. split; [|exact Hs].
    cbn -[is_any] in Hr. destruct Hr as (s1 & s2 & Es & _ & _ & ->).
    rewrite Hi in Es. symmetry in Es. apply app_eq_nil in Es.
    destruct Es as [-> ->]. cbn. now rewrite Hg.
  - exfalso. revert E. destruct (section_start_sem d t Hd Ht) as (mid & Hp & Hi).
    eapply exec_complete. unfold RE_SECTION_MULTI. apply sem_app.
    exists mid. split; [exact Hp|]. cbn -[is_any].
    exists [], []. rewrite Hi. repeat split; reflexivity.
Qed.

Lemma section_start_ends_body d t :
  is_number d -> is_heading t -> ends_body (section_start d t) = true.
Proof.
  intros Hd Ht. unfold ends_body.
  destruct (re_match RE_CHAPTER_HEAD _); [reflexivity|].
  rewrite section_start_not_inline by assumption.
  destruct (re_match RE_SECTION_HEADER (section_start d t)) eqn:E;
    [reflexivity|exfalso].
  unfold re_match in E.
  destruct (exec RE_SECTION_HEADER (Cfg 0 (section_start d t) [] None)) eqn:E';
    [discriminate|].
  revert E'. destruct Hd as [Hd Hdd]. destruct d as [|x ds]; [congruence|].
  simpl in Hdd. andb_in Hdd as [Hx Hds].
  eapply exec_complete. cbn -[is_digit is_space]. split; [reflexivity|].
  exists x, (ds ++ u ". " ++ t ++ [EM_DASH]). repeat split; auto.
  exists ds, (u ". " ++ t ++ [EM_DASH]). repeat split; auto.
  exists PERIOD, (SPACE :: t ++ [EM_DASH]). repeat split; auto.
  exists SPACE, (t ++ [EM_DASH]). repeat split; auto.
Qed.

(** ** Scenario A *)

(** C5: the three lines of scenario A give a Title named
    "TITLE 3.—The President" with exactly one Chapter, named
    "Chapter 1.—Presidential Elections.", with exactly one Section, named
    "101. Time of choosing electors", whose body is
    "Electors shall be appointed...". *)
Theorem scenario_A_tree :
  forall stem,
    to_xml_tree stem scenario_A
    = Some (mkTitle (u "TITLE 3.—The President")
              [mkChapter (u "Chapter 1.—Presidential Elections.")
                 [mkSection (u "101. Time of choosing electors")
                            (u "Electors shall be appointed...")]],
            u "3").
Proof.
  intros stem. unfold to_xml_tree.
  replace (paragraphs_of scenario_A) with scenario_A
    by (vm_compute; reflexivity).
  replace (build_title_name stem scenario_A)
    with (u "3", u "TITLE 3.—The President").
  - vm_compute. reflexivity.
  - unfold build_title_name.
    replace (title_from_paragraphs scenario_A)
      with (Some (u "3", u "TITLE 3.—The President"))
      by (vm_compute; reflexivity).
    reflexivity.
Qed.

(** ** The statements at work on the scenarios *)

Lemma section_before_first_chapter_header_witness :
  Forall (fun l => is_chapter_head l = false) scenario_C
  /\ parse scenario_C = Some [].
Proof.
  assert (H : Forall (fun l => is_chapter_head l = false) scenario_C)
    by (repeat constructor).
  split; [exact H|].
  exact (proj1 (proj2 (proj2 section_before_first_chapter_header))
           scenario_C H).
Defined.

Lemma toc_row_is_passed_over_witness :
  startswith (lower (u "Chapter Sec.")) (u "chapter") = true
  /\ contains (lower (u "Chapter Sec.")) (u "sec") = true
  /\ re_match RE_CHAPTER_HEAD (u "Chapter Sec.") = None
  /\ ends_body (u "Chapter Sec.") = false.
Proof.
  assert (H1 : startswith (lower (u "Chapter Sec.")) (u "chapter") = true)
    by reflexivity.
  assert (H2 : contains (lower (u "Chapter Sec.")) (u "sec") = true)
    by reflexivity.
  assert (H3 : re_match RE_CHAPTER_HEAD (u "Chapter Sec.") = None)
    by reflexivity.
  split; [exact H1|]. split; [exact H2|]. split; [exact H3|].
  exact (proj1 (proj2 (proj2
           (toc_row_is_passed_over (u "Chapter Sec.") H1 H2 H3)))).
Defined.

Lemma chapter_name_one_final_period_witness :
  In (u "Chapter 1—Foo..") [u "Chapter 1—Foo.."]
  /\ re_match RE_CHAPTER_HEAD (u "Chapter 1—Foo..") = Some [u "1"; u "Foo."]
  /\ one_final_period (u "Chapter 1.—Foo.") = true
  /\ exists chs,
       parse [u "Chapter 1—Foo.."] = Some chs
       /\ In (u "Chapter 1.—Foo.") (map ch_name chs)
       /\ Forall (fun ch => one_final_period (ch_name ch) = true) chs.
Proof.
  assert (H1 : In (u "Chapter 1—Foo..") [u "Chapter 1—Foo.."])
    by (simpl; auto).
  assert (H2 : re_match RE_CHAPTER_HEAD (u "Chapter 1—Foo..")
               = Some [u "1"; u "Foo."]) by reflexivity.
  split; [exact H1|]. split; [exact H2|].
  exact (chapter_name_one_final_period
           [u "Chapter 1—Foo.."] (u "Chapter 1—Foo..") [u "1"; u "Foo."]
           H1 H2).
Defined.

Lemma title_falls_back_on_file_name_witness :
  Forall (fun p => re_match RE_TITLE_LINE_MIN p = None)
    (paragraphs_of scenario_C)
  /\ first_title_number (u "Title 12 - Banks, 1925") (u "12")
  /\ exists chs,
       to_xml_tree (u "Title 12 - Banks, 1925") scenario_C
       = Some (mkTitle (u "TITLE " ++ u "12" ++ u ".—") chs, u "12").
Proof.
  assert (H1 : Forall (fun p => re_match RE_TITLE_LINE_MIN p = None)
                 (paragraphs_of scenario_C))
    by (repeat constructor).
  assert (H2 : first_title_number (u "Title 12 - Banks, 1925") (u "12")).
  { exists [], (u "Title"), (u " "), (u " - Banks, 1925").
    split; [reflexivity|]. split; [repeat constructor|].
    split; [discriminate|]. split; [reflexivity|].
    split; [discriminate|]. split; [reflexivity|].
    split; [reflexivity|]. intros; simpl; lia. }
  split; [exact H1|]. split; [exact H2|].
  exact (title_falls_back_on_file_name
           (u "Title 12 - Banks, 1925") scenario_C (u "12") H1 H2).
Defined.

Lemma parser_terminates_witness :
  cursor after_header < length scenario_D
  /\ cursor after_header < cursor (main_step scenario_D after_header)
     <= length scenario_D.
Proof.
  assert (H : cursor after_header < length scenario_D) by (simpl; lia).
  split; [exact H|].
  exact (proj1 (proj2 (proj2 parser_terminates)) scenario_D after_header H).
Defined.

Lemma title_unknown_number_witness :
  Forall (fun p => re_match RE_TITLE_LINE_MIN p = None)
    (paragraphs_of scenario_C)
  /\ (forall d, ~ holds_title_number (u "statutes") d)
  /\ exists chs,
       to_xml_tree (u "statutes") scenario_C
       = Some (mkTitle (u "TITLE ?.—") chs, u "?").
Proof.
  assert (H1 : Forall (fun p => re_match RE_TITLE_LINE_MIN p = None)
                 (paragraphs_of scenario_C))
    by (repeat constructor).
  assert (H2 : forall d, ~ holds_title_number (u "statutes") d).
  { intros d H. apply file_title_found in H. apply H. reflexivity. }
  split; [exact H1|]. split; [exact H2|].
  exact (title_unknown_number (u "statutes") scenario_C H1 H2).
Defined.

(** ** More on the line normaliser *)

Lemma strip_strip s : strip (strip s) = strip s.
Proof. apply strip_id; [apply strip_head|apply strip_last]. Qed.

Lemma single_spaced_app a b :
  single_spaced (a ++ b) = true -> single_spaced a = true /\ single_spaced b = true.
Proof.
  induction a as [|c a IH]; simpl; [auto|]. intros H.
  andb_in H as [Hc H]. destruct (IH H) as [Ha Hb]. rewrite Ha, Hb.
  split; [|reflexivity]. rewrite andb_true_r.
  destruct (is_space c); [|reflexivity].
  andb_in Hc as [Hc Hh]. rewrite Hc. simpl.
  destruct a; [reflexivity|exact Hh].
Qed.

Lemma single_spaced_in s c :
  single_spaced s = true -> In c s -> is_space c = true -> c = SPACE.
Proof.
  induction s as [|x s IH]; simpl; [tauto|]. intros H [->|Hin] Hc.
  - rewrite Hc in H. andb_in H as [H _]. andb_in H as [H _].
    now apply N.eqb_eq in H.
  - andb_in H as [_ H]. auto.
Qed.

Lemma no_en_dash_in s : no_en_dash s = true -> ~ In EN_DASH s.
Proof.
  unfold no_en_dash. rewrite forallb_forall. intros H Hin.
  apply H in Hin. discriminate.
Qed.

Lemma ink_app a b : ink (a ++ b) = ink a ++ ink b.
Proof. apply filter_app. Qed.

Lemma ink_all_space w : forallb is_space w = true -> ink w = [].
Proof.
  induction w as [|c w IH]; simpl; [reflexivity|]. intros H.
  andb_in H as [Hc H]. rewrite Hc. simpl. auto.
Qed.

Lemma ink_strip s : ink (strip s) = ink s.
Proof.
  unfold strip.
  destruct (lstrip_by_suffix is_space s) as (w & E & Hw).
  destruct (rstrip_by_prefix is_space (lstrip_by is_space s)) as (w' & E' & Hw').
  rewrite E at 2. rewrite E' at 2. rewrite !ink_app.
  rewrite (ink_all_space _ Hw), (ink_all_space _ Hw'). simpl.
  now rewrite app_nil_r.
Qed.

Lemma ink_squeeze s : forall b, ink (squeeze b s) = ink s.
Proof.
  induction s as [|c s IH]; intros b; simpl; [reflexivity|].
  destruct (is_space c) eqn:Hc; simpl.
  - destruct b; simpl; apply IH.
  - rewrite Hc. simpl. now rewrite IH.
Qed.

Lemma ink_replace_dash s :
  ink (replace_char EN_DASH EM_DASH s) = replace_char EN_DASH EM_DASH (ink s).
Proof.
  induction s as [|c s IH]; simpl; [reflexivity|].
  destruct (c =? EN_DASH)%N eqn:E.
  - apply N.eqb_eq in E. subst. simpl. now rewrite IH.
  - destruct (is_space c) eqn:Hc; simpl; [exact IH|]. now rewrite E, IH.
Qed.

Lemma ink_has_ink s : ink s = [] <-> has_ink s = false.
Proof.
  induction s as [|c s IH]; simpl; [tauto|].
  destruct (is_space c); simpl; [exact IH|]. split; discriminate.
Qed.

Lemma ink_nil_strip s : ink s = [] -> strip s = [].
Proof.
  intros H. apply ink_has_ink in H.
  destruct (strip s) as [|c t] eqn:E; [reflexivity|].
  assert (Hi : has_ink (strip s) = true).
  { apply nonempty_ink; [now rewrite E|apply strip_head]. }
  rewrite has_ink_strip in Hi. congruence.
Qed.

Lemma has_ink_all_space s : has_ink s = false -> forallb is_space s = true.
Proof.
  induction s as [|c s IH]; simpl; [reflexivity|]. intros H.
  apply orb_false_iff in H. destruct H as [Hc H].
  apply negb_false_iff in Hc. rewrite Hc. auto.
Qed.

(** X1: what [normalize] returns holds no en dash, its only white-space
    characters are spaces, no two of them are next to each other, and none
    is at either end. *)
Theorem normalize_result_shape :
  forall s,
    ~ In EN_DASH (normalize s)
    /\ (forall c, In c (normalize s) -> is_space c = true -> c = SPACE)
    /\ (forall a b, normalize s <> a ++ SPACE :: SPACE :: b)
    /\ head_space (normalize s) = false
    /\ head_space (rev (normalize s)) = false.
Proof.
  intros s. pose proof (normalize_normalized s) as H. unfold normalized in H.
  andb_in H as [H H4]. andb_in H as [H H3]. andb_in H as [H1 H2].
  apply negb_true_iff in H3, H4.
  split; [now apply no_en_dash_in|].
  split; [intros c; now apply single_spaced_in|].
  split; [|auto].
  intros a b E. rewrite E in H2. apply single_spaced_app in H2.
  destruct H2 as [_ H2]. simpl in H2. discriminate.
Qed.

(** X2: [normalize] keeps every character that is not white-space, in the
    order of the input, an en dash becoming an em dash; it only changes
    white-space. *)
Theorem normalize_keeps_ink :
  forall s, ink (normalize s) = replace_char EN_DASH EM_DASH (ink s).
Proof.
  intros s. now rewrite normalize_eq, ink_strip, ink_squeeze, ink_replace_dash.
Qed.

(** X3: [normalize] returns the empty string exactly for the strings that
    hold nothing but white-space, the empty one among them. *)
Theorem normalize_empty_iff_blank :
  forall s, normalize s = [] <-> forallb is_space s = true.
Proof.
  intros s. split.
  - intros H. apply has_ink_all_space.
    destruct (has_ink s) eqn:E; [|reflexivity].
    assert (Hn : has_ink (normalize s) = true).
    { now rewrite normalize_eq, has_ink_strip, has_ink_squeeze,
        has_ink_replace. }
    rewrite H in Hn. discriminate.
  - intros H. rewrite normalize_eq. apply ink_nil_strip.
    rewrite ink_squeeze, ink_replace_dash, (ink_all_space _ H). reflexivity.
Qed.

(** ** Reading the paragraphs *)

Lemma is_space_replace_nbsp c :
  is_space (if (c =? NBSP)%N then SPACE else c) = is_space c.
Proof.
  destruct (c =? NBSP)%N eqn:E; [|reflexivity].
  apply N.eqb_eq in E. now subst.
Qed.

Lemma is_space_replace_dash c :
  is_space (if (c =? EN_DASH)%N then EM_DASH else c) = is_space c.
Proof.
  destruct (c =? EN_DASH)%N eqn:E; [|reflexivity].
  apply N.eqb_eq in E. now subst.
Qed.

Lemma lstrip_map (g : N -> N) s :
  (forall c, is_space (g c) = is_space c) ->
  lstrip_by is_space (map g s) = map g (lstrip_by is_space s).
Proof.
  intros Hg. induction s as [|c s IH]; simpl; [reflexivity|].
  rewrite Hg. destruct (is_space c); [exact IH|reflexivity].
Qed.

Lemma strip_map (g : N -> N) s :
  (forall c, is_space (g c) = is_space c) ->
  strip (map g s) = map g (strip s).
Proof.
  intros Hg. unfold strip, rstrip_by.
  now rewrite lstrip_map, <- map_rev, lstrip_map, map_rev.
Qed.

Lemma squeeze_replace_nbsp s : forall b,
  squeeze b (replace_char NBSP SPACE s) = squeeze b s.
Proof.
  induction s as [|c s IH]; intros b; simpl; [reflexivity|].
  rewrite is_space_replace_nbsp.
  destruct (is_space c) eqn:Hc; [destruct b; now rewrite IH|].
  destruct (c =? NBSP)%N eqn:E.
  - apply N.eqb_eq in E. subst. discriminate.
  - now rewrite IH.
Qed.

Lemma replace_dash_nbsp s :
  replace_char EN_DASH EM_DASH (replace_char NBSP SPACE s)
  = replace_char NBSP SPACE (replace_char EN_DASH EM_DASH s).
Proof.
  induction s as [|c s IH]; simpl; [reflexivity|]. rewrite IH. f_equal.
  destruct (c =? NBSP)%N eqn:E1; destruct (c =? EN_DASH)%N eqn:E2;
    simpl; rewrite ?E1, ?E2; try reflexivity.
  apply N.eqb_eq in E1, E2. subst. discriminate.
Qed.

Lemma normalize_replace_nbsp s :
  normalize (replace_char NBSP SPACE s) = normalize s.
Proof.
  now rewrite !normalize_eq, replace_dash_nbsp, squeeze_replace_nbsp.
Qed.

Lemma squeeze_lead w : forall b,
  forallb is_space w = true ->
  exists h b',
    forallb is_space h = true
    /\ forall x, squeeze b (w ++ x) = h ++ squeeze b' x.
Proof.
  induction w as [|c w IH]; intros b H; simpl in *.
  - exists [], b. auto.
  - andb_in H as [Hc H]. rewrite Hc. destruct b.
    + apply IH, H.
    + destruct (IH true H) as (h & b' & Hh & E).
      exists (SPACE :: h), b'. split; [exact Hh|].
      intros x. simpl. now rewrite E.
Qed.

Lemma squeeze_all_space w : forall b,
  forallb is_space w = true -> forallb is_space (squeeze b w) = true.
Proof.
  induction w as [|c w IH]; intros b H; simpl in *; [reflexivity|].
  andb_in H as [Hc H]. rewrite Hc. destruct b; simpl; auto.
Qed.

Lemma squeeze_trail x w : forall b,
  forallb is_space w = true ->
  exists h,
    forallb is_space h = true /\ squeeze b (x ++ w) = squeeze b x ++ h.
Proof.
  induction x as [|c x IH]; intros b H; simpl.
  - exists (squeeze b w). split; [now apply squeeze_all_space|reflexivity].
  - destruct (is_space c); [destruct b|].
    + apply IH, H.
    + destruct (IH true H) as (h & Hh & ->). exists h. auto.
    + destruct (IH false H) as (h & Hh & ->). exists h. auto.
Qed.

Lemma strip_lead w s : forallb is_space w = true -> strip (w ++ s) = strip s.
Proof.
  intros H. rewrite <- (app_nil_r s) at 1. now apply strip_pad.
Qed.

Lemma strip_trail w s : forallb is_space w = true -> strip (s ++ w) = strip s.
Proof. intros H. now apply (strip_pad [] s w). Qed.

Lemma strip_squeeze_any s b : strip (squeeze b s) = strip (squeeze false s).
Proof.
  destruct b; [|reflexivity]. destruct s as [|c s]; [reflexivity|]. simpl.
  destruct (is_space c); [|reflexivity].
  symmetry. now apply (strip_lead [SPACE]).
Qed.

Lemma normalize_strip s : normalize (strip s) = normalize s.
Proof.
  rewrite !normalize_eq. unfold replace_char at 1.
  rewrite <- strip_map by apply is_space_replace_dash.
  fold (replace_char EN_DASH EM_DASH s).
  set (t := replace_char EN_DASH EM_DASH s).
  destruct (lstrip_by_suffix is_space t) as (w & E & Hw).
  destruct (rstrip_by_prefix is_space (lstrip_by is_space t)) as (w' & E' & Hw').
  fold (strip t) in E'. rewrite E' in E.
  destruct (squeeze_lead w false Hw) as (h & b' & Hh & El).
  destruct (squeeze_trail (strip t) w' b' Hw') as (h' & Hh' & Er).
  rewrite E at 2. rewrite El, Er, strip_lead, strip_trail by assumption.
  symmetry. apply strip_squeeze_any.
Qed.

Lemma nonempty_strip s : nonempty (strip s) = has_ink s.
Proof.
  destruct (has_ink s) eqn:E.
  - rewrite <- has_ink_strip in E. now destruct (strip s).
  - apply ink_has_ink in E. now rewrite (ink_nil_strip _ E).
Qed.

Lemma has_ink_replace_nbsp s : has_ink (replace_char NBSP SPACE s) = has_ink s.
Proof.
  induction s as [|c s IH]; simpl; [reflexivity|].
  now rewrite is_space_replace_nbsp, IH.
Qed.

Lemma paragraphs_of_app a b :
  paragraphs_of (a ++ b) = paragraphs_of a ++ paragraphs_of b.
Proof. unfold paragraphs_of. now rewrite filter_app, map_app. Qed.

Lemma concat_paragraph_texts runs :
  concat (paragraph_texts runs) = joined_text runs.
Proof.
  unfold paragraph_texts, joined_text.
  induction runs as [|t runs IH]; simpl; [reflexivity|].
  rewrite concat_app, IH. destruct t as [[|c s]|]; simpl;
    now rewrite ?app_nil_r.
Qed.

Lemma not_in_replace_nbsp s : ~ In NBSP (replace_char NBSP SPACE s).
Proof.
  unfold replace_char. intros H. apply in_map_iff in H.
  destruct H as (c & E & _). destruct (c =? NBSP)%N eqn:Ec.
  - discriminate.
  - apply N.eqb_neq in Ec. congruence.
Qed.

Lemma in_strip c s : In c (strip s) -> In c s.
Proof.
  unfold strip. intros H.
  destruct (lstrip_by_suffix is_space s) as (w & E & _).
  destruct (rstrip_by_prefix is_space (lstrip_by is_space s)) as (w' & E' & _).
  rewrite E, E'. apply in_or_app. right. apply in_or_app. now left.
Qed.

(** X4: no paragraph is yielded with a no-break space in it or with
    white-space at either end, and no more strings are yielded than the
    document has paragraphs. *)
Theorem yielded_paragraphs_are_clean :
  forall doc,
    Forall (fun p => ~ In NBSP p
                     /\ head_space p = false
                     /\ head_space (rev p) = false)
           (iter_docx_paragraph_text doc)
    /\ length (iter_docx_paragraph_text doc) <= length doc.
Proof.
  induction doc as [|runs doc [IH1 IH2]]; [split; [constructor|apply le_n]|].
  change (iter_docx_paragraph_text (runs :: doc))
    with (match paragraph_texts runs with
          | [] => []
          | texts => [strip (replace_char NBSP SPACE (concat texts))]
          end ++ iter_docx_paragraph_text doc).
  destruct (paragraph_texts runs) as [|t texts]; cbn [app length].
  - split; [exact IH1|]. now apply le_S.
  - split; [|now apply le_n_S]. constructor; [|exact IH1].
    split; [|split; [apply strip_head|apply strip_last]].
    intros H. apply in_strip in H. now apply not_in_replace_nbsp in H.
Qed.

(** X5: the lines that the parser works on are the normalised texts of the
    paragraphs that hold more than white-space, in the order of the
    document: a paragraph without text, or with white-space only, gives no
    line, and the replacement of no-break spaces and the stripping by the
    reader change nothing in the lines. *)
Theorem lines_of_the_document :
  forall doc,
    paragraphs_of (iter_docx_paragraph_text doc)
    = map normalize (filter has_ink (map joined_text doc)).
Proof.
  intros doc. unfold iter_docx_paragraph_text.
  induction doc as [|runs doc IH]; [reflexivity|].
  cbn [flat_map map filter]. rewrite paragraphs_of_app, IH.
  rewrite <- (concat_paragraph_texts runs).
  destruct (paragraph_texts runs) as [|t texts] eqn:E; [reflexivity|].
  set (s := concat (t :: texts)).
  unfold paragraphs_of at 1. cbn [filter map].
  rewrite strip_strip, nonempty_strip, has_ink_replace_nbsp.
  destruct (has_ink s); [|reflexivity].
  cbn [map app]. now rewrite normalize_strip, normalize_replace_nbsp.
Qed.

(** ** The first loop *)

Lemma skip_preamble_take_until paras :
  skip_preamble paras 0 = length (take_until is_chapter_head paras).
Proof.
  induction paras as [|line paras IH]; simpl; [reflexivity|].
  rewrite (skip_preamble_shift paras 1), IH.
  destruct (is_toc_row line) eqn:Et.
  - unfold is_toc_row in Et. andb_in Et as [_ Et].
    apply negb_true_iff in Et. now rewrite Et.
  - now destruct (is_chapter_head line).
Qed.

(** X6: the first loop leaves the cursor on the first line that matches the
    chapter-header pattern, or at the end when there is none; its test for
    table-of-contents rows makes no difference to where it stops. *)
Theorem first_loop_stops_at_first_header :
  forall paras,
    skip_preamble paras 0 = length (take_until is_chapter_head paras).
Proof. exact skip_preamble_take_until. Qed.

(** ** The title of the output *)

Lemma startswith_nil s : startswith s [] = true.
Proof. now destruct s. Qed.

Lemma startswith_app a b sub :
  startswith a sub = true -> startswith (a ++ b) sub = true.
Proof.
  revert a. induction sub as [|p sub IH]; intros a H.
  - apply startswith_nil.
  - destruct a as [|c a]; simpl in *; [discriminate|].
    andb_in H as [Hc H]. rewrite Hc. simpl. now apply IH.
Qed.

Lemma contains_app_l a b sub :
  contains a sub = true -> contains (a ++ b) sub = true.
Proof.
  induction a as [|c a IH]; simpl; intros H.
  - rewrite orb_false_r in H. destruct sub; [|discriminate].
    destruct b; reflexivity.
  - apply orb_true_iff in H. apply orb_true_iff. destruct H as [H|H].
    + left. now apply (startswith_app (c :: a) b).
    + right. now apply IH.
Qed.

Lemma contains_app_r a b sub :
  contains b sub = true -> contains (a ++ b) sub = true.
Proof.
  intros H. induction a as [|c a IH]; simpl; [exact H|].
  rewrite IH. apply orb_true_r.
Qed.

Lemma contains_factor a b c sub :
  contains (a ++ b ++ c) sub = false -> contains b sub = false.
Proof.
  intros H. destruct (contains b sub) eqn:E; [|reflexivity].
  rewrite contains_app_r in H; [discriminate|].
  now apply contains_app_l.
Qed.

Lemma contains_strip s sub :
  contains s sub = false -> contains (strip s) sub = false.
Proof.
  unfold strip.
  destruct (lstrip_by_suffix is_space s) as (w & E & _).
  destruct (rstrip_by_prefix is_space (lstrip_by is_space s)) as (w' & E' & _).
  rewrite E' in E. rewrite E at 1. apply contains_factor.
Qed.

Lemma contains_rstrip f s sub :
  contains s sub = false -> contains (rstrip_by f s) sub = false.
Proof.
  destruct (rstrip_by_prefix f s) as (w & E & _). rewrite E at 1.
  apply (contains_factor [] (rstrip_by f s) w).
Qed.

(** [find] returns -1 when [sub] does not occur, and else an index before
    which it does not occur. *)
Lemma find_from_spec sub s :
  sub <> [] ->
  forall i,
    (find_from s sub i = (-1)%Z /\ contains s sub = false)
    \/ exists k,
         find_from s sub i = (i + Z.of_nat k)%Z
         /\ contains (firstn k s) sub = false.
Proof.
  intros Hsub. assert (Hnil : startswith [] sub = false)
    by (destruct sub; [congruence|reflexivity]).
  induction s as [|c s IH]; intros i.
  - left. cbn [find_from contains]. now rewrite Hnil.
  - cbn [find_from contains]. destruct (startswith (c :: s) sub) eqn:E.
    + right. exists 0. split; [lia|]. cbn [firstn contains]. now rewrite Hnil.
    + destruct (IH (i + 1)%Z) as [[H1 H2]|(k & H1 & H2)].
      * left. now rewrite H2.
      * right. exists (S k). split; [lia|].
        cbn [firstn contains]. rewrite H2, orb_false_r.
        destruct (startswith (c :: firstn k s) sub) eqn:E'; [|reflexivity].
        apply startswith_app with (b := skipn k s) in E'.
        change ((c :: firstn k s) ++ skipn k s)
          with (c :: (firstn k s ++ skipn k s)) in E'.
        rewrite firstn_skipn in E'. congruence.
Qed.

(** The number that the title pattern captures is a run of digits. *)
Lemma title_line_number p m :
  re_match RE_TITLE_LINE_MIN p = Some m -> is_number (group 1 m).
Proof.
  unfold re_match. intros H.
  destruct (exec RE_TITLE_LINE_MIN (Cfg 0 p [] None)) as [r|] eqn:E;
    [|discriminate].
  simpl in H. inversion H; subst m. clear H.
  apply exec_sound in E. cbn -[is_digit is_space is_any is_chr_ci] in E.
  destruct E as (_ & t1 & s1 & E1 & _ & t2 & s2 & E2 & _ & t3 & s3 & E3 & _
                 & t4 & s4 & E4 & _ & t5 & s5 & E5 & _
                 & w1 & s6 & E6 & _ & ws & s7 & E7 & _
                 & d1 & s8 & E8 & D1 & ds & s9 & E9 & Ds
                 & q & s10 & E10 & _ & w2 & s11 & E11 & _
                 & e & s12 & E12 & _ & w3 & s13 & E13 & _
                 & y & s14 & E14 & _ & g & s15 & E15 & _
                 & w4 & s16 & E16 & _ & _ & ->).
  cbn -[is_digit]. rewrite rev_app_distr, rev_involutive.
  split; [discriminate|]. cbn -[is_digit]. now rewrite D1.
Qed.

Lemma title_from_paragraphs_shape paras num display :
  title_from_paragraphs paras = Some (num, display) ->
  exists text,
    display = u "TITLE " ++ num ++ u ".—" ++ text
    /\ is_number num
    /\ strip text = text
    /\ contains text (u "Chapter") = false.
Proof.
  induction paras as [|p paras IH]; simpl; [discriminate|].
  destruct (re_match RE_TITLE_LINE_MIN p) as [m|] eqn:E; [|exact IH].
  intros H. inversion H; subst. clear H.
  eexists. split; [reflexivity|]. split; [now apply title_line_number in E|].
  split; [apply strip_strip|]. apply contains_strip.
  destruct (find_from_spec (u "Chapter") (group 2 m)) with (i := 0%Z)
    as [[H1 H2]|(k & H1 & H2)]; [discriminate| |]; unfold find.
  - rewrite H1. exact H2.
  - rewrite H1. replace (0 + Z.of_nat k =? -1)%Z with false
      by (symmetry; apply Z.eqb_neq; lia).
    cbn [negb]. replace (Z.to_nat (0 + Z.of_nat k)) with k by lia.
    now apply contains_rstrip.
Qed.

(** X7: whatever the lines and the file name are, the display name of the
    Title is "TITLE {num}.—{text}" where the number is a run of digits or
    "?", and the text has no white-space around it and never holds the
    word "Chapter": a chapter word that ran into the title paragraph is cut
    off, with what follows it. *)
Theorem title_name_shape :
  forall stem paras,
    exists num text,
      build_title_name stem paras = (num, u "TITLE " ++ num ++ u ".—" ++ text)
      /\ (num = u "?" \/ is_number num)
      /\ strip text = text
      /\ contains text (u "Chapter") = false.
Proof.
  intros stem paras. unfold build_title_name.
  destruct (title_from_paragraphs paras) as [[num display]|] eqn:E.
  - apply title_from_paragraphs_shape in E.
    destruct E as (text & -> & Hn & Hs & Hc). exists num, text. auto.
  - destruct (re_search RE_FILE_TITLE stem) as [m|] eqn:Es.
    + exists (group 1 m), []. split; [reflexivity|].
      apply file_title_digits in Es.
      destruct Es as (_ & _ & _ & _ & _ & _ & _ & _ & Hn & Hd).
      split; [right; split; assumption|]. split; reflexivity.
    + exists (u "?"), []. repeat split. now left.
Qed.

Lemma title_from_paragraphs_first pre p rest m :
  Forall (fun q => re_match RE_TITLE_LINE_MIN q = None) pre ->
  re_match RE_TITLE_LINE_MIN p = Some m ->
  title_from_paragraphs (pre ++ p :: rest) = title_from_paragraphs [p].
Proof.
  intros Hpre Hp. induction Hpre as [|q pre Hq _ IH]; simpl.
  - now rewrite Hp.
  - now rewrite Hq.
Qed.

(** X8: the first line that matches the title pattern decides the title:
    the lines after it, other title lines among them, and the file name
    make no difference to the number and the display name. *)
Theorem first_title_line_wins :
  forall stem stem' pre p rest rest' m,
    Forall (fun q => re_match RE_TITLE_LINE_MIN q = None) pre ->
    re_match RE_TITLE_LINE_MIN p = Some m ->
    build_title_name stem (pre ++ p :: rest)
    = build_title_name stem' (p :: rest')
    /\ fst (build_title_name stem (pre ++ p :: rest)) = group 1 m.
Proof.
  intros stem stem' pre p rest rest' m Hpre Hp. unfold build_title_name.
  rewrite (title_from_paragraphs_first pre p rest m Hpre Hp).
  change (p :: rest') with ([] ++ p :: rest').
  rewrite (title_from_paragraphs_first [] p rest' m (Forall_nil _) Hp).
  simpl. rewrite Hp. split; reflexivity.
Qed.

(** ** The sections of the output *)

Lemma sem_groups_grow p : forall k r,
  sem p k r -> exists l, groups r = groups k ++ l.
Proof.
  induction p as [|o p IH]; intros k r H; simpl in H.
  - subst. exists []. now rewrite app_nil_r.
  - destruct o.
    + destruct H as [_ H]. now apply IH in H.
    + destruct H as [_ H]. now apply IH in H.
    + now apply IH in H.
    + apply IH in H. destruct H as (l & ->). simpl.
      rewrite <- app_assoc. eauto.
    + destruct H as (x & s' & _ & _ & H). now apply IH in H.
    + destruct H as [(x & s' & _ & _ & H)|H]; now apply IH in H.
    + destruct H as (s1 & s2 & _ & _ & H). now apply IH in H.
    + destruct H as (s1 & s2 & _ & _ & H). now apply IH in H.
Qed.

(** The first group of the section patterns is a run of digits, whatever
    the line. *)
Lemma section_prefix_number line mid :
  sem SECTION_PREFIX (Cfg 0 line [] None) mid ->
  exists g1 g2, groups mid = [g1; g2] /\ is_number g1.
Proof.
  intros H. cbn -[is_digit is_space is_any] in H.
  destruct H as (_ & x & s1 & E1 & D1 & ds & s2 & E2 & Dds
                 & q & s3 & E3 & _ & w1 & s4 & E4 & _
                 & y & s5 & E5 & _ & g & s6 & E6 & _
                 & w2 & s7 & E7 & _ & e & s8 & E8 & _
                 & w3 & s9 & E9 & _ & ->).
  exists (x :: ds), (y :: g). cbn -[is_digit].
  rewrite !rev_app_distr, !rev_involutive. split; [reflexivity|].
  split; [discriminate|]. cbn -[is_digit]. now rewrite D1.
Qed.

Lemma section_number tl line m :
  re_match (SECTION_PREFIX ++ tl) line = Some m -> is_number (group 1 m).
Proof.
  unfold re_match. intros H.
  destruct (exec (SECTION_PREFIX ++ tl) (Cfg 0 line [] None)) as [r|] eqn:E;
    [|discriminate].
  simpl in H. inversion H; subst m. clear H.
  apply exec_sound, sem_app in E. destruct E as (mid & Hp & Ht).
  apply section_prefix_number in Hp. destruct Hp as (g1 & g2 & Hg & Hn).
  apply sem_groups_grow in Ht. destruct Ht as (l & ->).
  rewrite Hg. exact Hn.
Qed.

Lemma all_sections_append_section (P : Section -> Prop) s chs : forall k,
  P s -> Forall P (all_sections chs) ->
  Forall P (all_sections (append_section k s chs)).
Proof.
  unfold all_sections.
  induction chs as [|ch chs IH]; intros k Hs H; [now destruct k|].
  simpl in H. apply Forall_app in H. destruct H as [H1 H2].
  destruct k; simpl; apply Forall_app; split; auto.
  apply Forall_app. split; [exact H1|]. now constructor.
Qed.

Lemma shaped_add_section num title body st :
  is_number num ->
  Forall section_shaped (all_sections (chapters st)) ->
  Forall section_shaped (all_sections (chapters (add_section num title body st))).
Proof.
  intros Hn H.
  assert (Hs : section_shaped
                 (mkSection (num ++ u ". " ++ strip title) (strip body))).
  { exists num, (strip title). simpl.
    split; [reflexivity|]. split; [exact Hn|].
    split; apply strip_strip. }
  destruct (current_chapter st) as [k|] eqn:E.
  - rewrite (add_section_some _ _ _ _ _ E). simpl.
    now apply all_sections_append_section.
  - rewrite (add_section_none _ _ _ _ E). simpl.
    apply all_sections_append_section; [exact Hs|].
    unfold all_sections. rewrite flat_map_app. apply Forall_app.
    split; [exact H|constructor].
Qed.

Lemma shaped_main_step paras st :
  Forall section_shaped (all_sections (chapters st)) ->
  Forall section_shaped (all_sections (chapters (main_step paras st))).
Proof.
  intros H. apply main_step_cases; cbv zeta.
  - intros chm _. simpl. unfold all_sections. rewrite flat_map_app.
    apply Forall_app. split; [exact H|constructor].
  - intros sm _ Hm.
    change (chapters (set_cursor ?i ?s)) with (chapters s).
    apply shaped_add_section; [|exact H].
    now apply (section_number _ _ _ Hm).
  - intros m _ _ Hm.
    change (chapters (set_cursor ?i ?s)) with (chapters s).
    apply shaped_add_section; [|exact H].
    now apply (section_number _ _ _ Hm).
  - intros _ _ _. exact H.
Qed.

(** X9: every Section of the tree has a name of the form
    "{num}. {title}" with a run of digits as number and no white-space
    around the title, and a body with no white-space at its ends. *)
Theorem sections_are_shaped :
  forall stem raw,
    exists t num,
      to_xml_tree stem raw = Some (t, num)
      /\ Forall section_shaped (all_sections (title_chapters t)).
Proof.
  intros stem raw.
  destruct (parse_total (paragraphs_of raw)) as (chs & Hp).
  rewrite (to_xml_tree_eq stem raw chs Hp). eexists _, _.
  split; [reflexivity|]. simpl.
  unfold parse in Hp.
  destruct (main_loop _ _ _) as [st'|] eqn:E; [|discriminate].
  simpl in Hp. inversion Hp; subst.
  apply (main_loop_invariant
           (fun st => Forall section_shaped (all_sections (chapters st)))
           (paragraphs_of raw)) in E; [exact E| |constructor].
  intros st _. apply shaped_main_step.
Qed.

(** ** Parsing chapter by chapter *)

Lemma take_until_app_stop stop a h b :
  stop h = true -> take_until stop (a ++ h :: b) = take_until stop a.
Proof.
  intros Hh. induction a as [|x a IH]; simpl; [now rewrite Hh|].
  destruct (stop x); [reflexivity|]. now rewrite IH.
Qed.

Lemma chapter_head_ends_body h : is_chapter_head h = true -> ends_body h = true.
Proof.
  unfold is_chapter_head, ends_body.
  destruct (re_match RE_CHAPTER_HEAD h); [reflexivity|discriminate].
Qed.

(** Before a chapter header, the lines after the header make no difference
    to a turn of the second loop. *)
Lemma main_step_before_header a h b st :
  ends_body h = true ->
  cursor st < length a ->
  main_step (a ++ h :: b) st = main_step a st.
Proof.
  intros Hh Hlt. unfold main_step.
  rewrite app_nth1 by exact Hlt.
  destruct (re_match RE_CHAPTER_HEAD _); [reflexivity|].
  destruct (re_match RE_SECTION_INLINE _); [reflexivity|].
  destruct (re_match RE_SECTION_MULTI _) as [m|]; [|reflexivity].
  rewrite !scan_body_take_until, skipn_app.
  replace (cursor st + 1 - length a) with 0 by lia.
  cbn [skipn]. now rewrite (take_until_app_stop ends_body _ h b Hh).
Qed.

Lemma main_loop_same paras : forall f1 f2 st r1 r2,
  main_loop f1 paras st = Some r1 ->
  main_loop f2 paras st = Some r2 ->
  r1 = r2.
Proof.
  intros f1 f2 st r1 r2 H1 H2.
  apply main_loop_more_fuel with (fuel' := Nat.max f1 f2) in H1; [|lia].
  apply main_loop_more_fuel with (fuel' := Nat.max f1 f2) in H2; [|lia].
  congruence.
Qed.

(** The second loop on [a ++ h :: b] goes through the state in which it
    leaves [a]. *)
Lemma main_loop_through a h b :
  ends_body h = true ->
  forall f st st_a,
    main_loop f a st = Some st_a ->
    forall f' r,
      main_loop f' (a ++ h :: b) st_a = Some r ->
      exists f'', main_loop f'' (a ++ h :: b) st = Some r.
Proof.
  intros Hh. induction f as [|f IH]; intros st st_a H f' r Hr; simpl in H.
  - destruct (length a <=? cursor st); [|discriminate].
    inversion H; subst. eauto.
  - destruct (length a <=? cursor st) eqn:E.
    + inversion H; subst. eauto.
    + apply Nat.leb_gt in E.
      destruct (IH _ _ H _ _ Hr) as (f'' & Hf). exists (S f''). simpl.
      replace (length (a ++ h :: b) <=? cursor st) with false
        by (symmetry; apply Nat.leb_gt; rewrite length_app; simpl; lia).
      now rewrite (main_step_before_header a h b st Hh E).
Qed.

Lemma append_section_prefix pre s chs : forall k,
  append_section (length pre + k) s (pre ++ chs)
  = pre ++ append_section k s chs.
Proof.
  induction pre as [|ch pre IH]; intros k; simpl; [reflexivity|].
  now rewrite IH.
Qed.

Lemma start_chapter_prefix pre num name st :
  start_chapter num name (add_prefix pre st)
  = add_prefix pre (start_chapter num name st).
Proof.
  unfold start_chapter, add_prefix. simpl.
  now rewrite <- app_assoc, length_app.
Qed.

Lemma add_section_prefix pre num title body st k :
  current_chapter st = Some k ->
  add_section num title body (add_prefix pre st)
  = add_prefix pre (add_section num title body st).
Proof.
  intros E. rewrite (add_section_some _ _ _ st k E).
  rewrite (add_section_some _ _ _ (add_prefix pre st) (length pre + k))
    by (simpl; now rewrite E).
  unfold add_prefix. simpl. now rewrite append_section_prefix.
Qed.

Lemma set_cursor_prefix pre i st :
  set_cursor i (add_prefix pre st) = add_prefix pre (set_cursor i st).
Proof. reflexivity. Qed.

(** Once a Chapter is open, the Chapters before it make no difference to a
    turn of the second loop. *)
Lemma main_step_prefix pre paras st k :
  current_chapter st = Some k ->
  main_step paras (add_prefix pre st) = add_prefix pre (main_step paras st).
Proof.
  intros E. unfold main_step. cbn [cursor add_prefix].
  destruct (re_match RE_CHAPTER_HEAD _).
  { now rewrite <- set_cursor_prefix, <- start_chapter_prefix. }
  destruct (re_match RE_SECTION_INLINE _).
  { now rewrite <- set_cursor_prefix, <- (add_section_prefix pre _ _ _ st k E). }
  destruct (re_match RE_SECTION_MULTI _) as [m|]; [|reflexivity].
  destruct (scan_body _ _ _) as [j bl].
  now rewrite <- set_cursor_prefix, <- (add_section_prefix pre _ _ _ st k E).
Qed.

Lemma main_step_keeps_open paras st k :
  current_chapter st = Some k ->
  exists k', current_chapter (main_step paras st) = Some k'.
Proof.
  intros E. apply main_step_cases; cbv zeta; intros; simpl; eauto;
    rewrite (add_section_some _ _ _ _ _ E); simpl; eauto.
Qed.

Lemma main_loop_prefix pre paras : forall f st k,
  current_chapter st = Some k ->
  main_loop f paras (add_prefix pre st)
  = option_map (add_prefix pre) (main_loop f paras st).
Proof.
  induction f as [|f IH]; intros st k E; simpl.
  - now destruct (length paras <=? cursor st).
  - destruct (length paras <=? cursor st); [reflexivity|].
    rewrite (main_step_prefix pre paras st k E).
    destruct (main_step_keeps_open paras st k E) as (k' & E').
    now apply (IH _ k').
Qed.

Lemma main_loop_cursor_le paras : forall f st st',
  cursor st <= length paras ->
  main_loop f paras st = Some st' ->
  cursor st' <= length paras.
Proof.
  intros f st st'.
  apply (main_loop_invariant (fun s => cursor s <= length paras)).
  intros s Hlt _. apply main_step_advances in Hlt. lia.
Qed.

Lemma skip_preamble_bounds_0 paras :
  cursor (mkState (length (take_until is_chapter_head paras)) [] None)
  <= length paras.
Proof.
  simpl. rewrite <- skip_preamble_take_until.
  apply (skip_preamble_bounds paras 0).
Qed.

(** The parse of lines that are followed by a chapter header and more. *)
Lemma parse_at_header a h b ca cb :
  is_chapter_head h = true ->
  parse a = Some ca ->
  parse (h :: b) = Some cb ->
  parse (a ++ h :: b) = Some (ca ++ cb).
Proof.
  intros Hh Ha Hb. pose proof (chapter_head_ends_body h Hh) as He.
  unfold parse in *.
  rewrite skip_preamble_take_until in *.
  rewrite (take_until_app_stop is_chapter_head a h b Hh).
  cbn [take_until length] in Hb. rewrite Hh in Hb. cbn [length] in Hb.
  set (init := mkState (length (take_until is_chapter_head a)) [] None) in *.
  destruct (main_loop (length a) a init) as [st_a|] eqn:Ea; [|discriminate].
  simpl in Ha. inversion Ha; subst ca. clear Ha.
  assert (Hcur : cursor st_a = length a).
  { pose proof (main_loop_exit _ _ _ _ Ea).
    pose proof (main_loop_cursor_le a _ _ _
                  (skip_preamble_bounds_0 a) Ea).
    lia. }
  (* the turn on the header, in both runs *)
  unfold is_chapter_head in Hh.
  destruct (re_match RE_CHAPTER_HEAD h) as [chm|] eqn:Em; [|discriminate].
  set (c := mkChapter (chapter_name (group 1 chm) (group 2 chm)) []).
  assert (Hb1 : main_step (h :: b) (mkState 0 [] None) = mkState 1 [c] (Some 0)).
  { unfold main_step. simpl nth. now rewrite Em. }
  assert (Ha1 : main_step (a ++ h :: b) st_a
                = add_prefix (chapters st_a)
                    (shift (length a) (mkState 1 [c] (Some 0)))).
  { unfold main_step. rewrite Hcur, nth_middle, Em.
    unfold add_prefix, shift, set_cursor, start_chapter. simpl.
    now rewrite Nat.add_0_r. }
  destruct (main_loop (S (length b)) (h :: b) (mkState 0 [] None))
    as [st_b|] eqn:Eb; [|discriminate].
  simpl in Hb. inversion Hb; subst cb. clear Hb.
  cbn [main_loop length Nat.leb cursor] in Eb. rewrite Hb1 in Eb.
  assert (Hr : main_loop (S (length b)) (a ++ h :: b) st_a
               = Some (add_prefix (chapters st_a) (shift (length a) st_b))).
  { cbn [main_loop].
    replace (length (a ++ h :: b) <=? cursor st_a) with false
      by (symmetry; apply Nat.leb_gt; rewrite length_app; simpl; lia).
    rewrite Ha1, (main_loop_prefix _ _ _ _ 0) by reflexivity.
    now rewrite main_loop_shift, Eb. }
  destruct (main_loop_through a h b He _ _ _ Ea _ _ Hr) as (f'' & Hf).
  destruct (main_loop_total (a ++ h :: b) (length (a ++ h :: b)) init)
    as (r & Er); [lia|].
  rewrite Er. rewrite (main_loop_same _ _ _ _ _ _ Er Hf). reflexivity.
Qed.

(** X10: the parse goes chapter by chapter: at a chapter header the lines
    split into two parts that can be parsed apart, and the Chapters of the
    whole are those of the part before the header followed by those of the
    part that starts with it.  A section never reaches over a chapter
    header, in either direction. *)
Theorem parse_splits_at_chapter_headers :
  forall a h b,
    is_chapter_head h = true ->
    exists ca cb,
      parse a = Some ca
      /\ parse (h :: b) = Some cb
      /\ parse (a ++ h :: b) = Some (ca ++ cb).
Proof.
  intros a h b Hh.
  destruct (parse_total a) as (ca & Ha).
  destruct (parse_total (h :: b)) as (cb & Hb).
  exists ca, cb. split; [exact Ha|]. split; [exact Hb|].
  now apply parse_at_header.
Qed.

(** ** The indentation of the tree *)

Lemma Element_ind' (P : Element -> Prop) :
  (forall tag attrib text tail children,
      Forall P children -> P (mkElement tag attrib text tail children)) ->
  forall e, P e.
Proof.
  intros H. fix IH 1. intros [tag attrib text tail children]. apply H.
  induction children as [|c cs IHc]; constructor; [apply IH|exact IHc].
Qed.

Lemma pad_spaces level : forallb is_space (pad level) = true.
Proof. induction level as [|l IH]; [reflexivity|exact IH]. Qed.

Lemma pad_end level : pad level ++ u "    " = pad (S level).
Proof.
  induction level as [|l IH]; [reflexivity|].
  change (pad (S l)) with (u "    " ++ pad l).
  rewrite <- app_assoc, IH. reflexivity.
Qed.

Lemma blank_all_space s : forallb is_space s = true -> blank (Some s) = true.
Proof.
  intros H. unfold blank. now rewrite (ink_nil_strip _ (ink_all_space _ H)).
Qed.

Lemma blank_margin level : blank (Some (NEWLINE :: pad level)) = true.
Proof. apply blank_all_space. simpl. apply pad_spaces. Qed.

Lemma skeleton_set_tail t e :
  blank t = true -> blank (el_tail e) = true ->
  skeleton (set_tail t e) = skeleton e.
Proof. destruct e as [tag attrib text tail children]. simpl. now intros -> ->. Qed.

Lemma skeleton_fix_last_tail i children :
  blank (Some i) = true ->
  map skeleton (fix_last_tail i children) = map skeleton children.
Proof.
  intros Hi. induction children as [|e [|e' rest] IH]; [reflexivity| |].
  - simpl. destruct (blank (el_tail e)) eqn:E; [|reflexivity].
    now rewrite skeleton_set_tail.
  - change (fix_last_tail i (e :: e' :: rest))
      with (e :: fix_last_tail i (e' :: rest)).
    cbn [map]. now rewrite IH.
Qed.

(** X11: [indent] changes nothing but blank text and tails: the tags, the
    attributes, the order and number of the children and every text or
    tail that holds more than white-space stay as they are, at every
    depth. *)
Theorem indent_keeps_the_content :
  forall level e, skeleton (indent level e) = skeleton e.
Proof.
  intros level e. revert level.
  induction e as [tag attrib text tail children IH] using Element_ind'.
  intros level. cbn [indent skeleton]. f_equal.
  - destruct children; [reflexivity|].
    destruct (blank text) eqn:E; [|now rewrite E].
    change ((NEWLINE :: pad level) ++ u "    ")
      with (NEWLINE :: (pad level ++ u "    ")).
    now rewrite pad_end, blank_margin.
  - destruct (negb (Nat.eqb level 0) && blank tail) eqn:E; [|reflexivity].
    andb_in E as [_ E]. now rewrite E, blank_margin.
  - rewrite skeleton_fix_last_tail by apply blank_margin.
    rewrite map_map. apply map_ext_Forall.
    eapply Forall_impl; [|exact IH]. intros c Hc. apply Hc.
Qed.

Lemma fix_last_tail_nil i children :
  fix_last_tail i children = [] <-> children = [].
Proof.
  destruct children as [|e [|e' rest]]; simpl; split; congruence.
Qed.

Lemma indent_set_tail level t e :
  blank t = true -> blank (el_tail e) = true ->
  indent (S level) (set_tail t e) = indent (S level) e.
Proof.
  destruct e as [tag attrib text tail children]. simpl. now intros -> ->.
Qed.

Lemma map_indent_fix_last_tail level i children :
  blank (Some i) = true ->
  map (indent (S level)) (fix_last_tail i children)
  = map (indent (S level)) children.
Proof.
  intros Hi. induction children as [|e [|e' rest] IH]; [reflexivity| |].
  - simpl fix_last_tail. destruct (blank (el_tail e)) eqn:E; [|reflexivity].
    cbn [map]. now rewrite indent_set_tail.
  - change (fix_last_tail i (e :: e' :: rest))
      with (e :: fix_last_tail i (e' :: rest)).
    cbn [map]. now rewrite IH.
Qed.

(** X12: [indent] is idempotent: indenting a tree that was indented at the
    same level leaves it as it is. *)
Theorem indent_is_idempotent :
  forall level e, indent level (indent level e) = indent level e.
Proof.
  intros level e. revert level.
  induction e as [tag attrib text tail children IH] using Element_ind'.
  intros level. cbn [indent].
  assert (Hc : map (indent (S level))
                 (fix_last_tail (NEWLINE :: pad level)
                    (map (indent (S level)) children))
               = map (indent (S level)) children).
  { rewrite map_indent_fix_last_tail by apply blank_margin.
    rewrite map_map. apply map_ext_Forall.
    eapply Forall_impl; [|exact IH]. intros c Hc. apply Hc. }
  f_equal.
  - destruct children as [|c cs]; [reflexivity|].
    cbn [map]. destruct (fix_last_tail _ _) eqn:E.
    + apply fix_last_tail_nil in E. discriminate.
    + destruct (blank text) eqn:Eb; [|now rewrite Eb].
      change ((NEWLINE :: pad level) ++ u "    ")
        with (NEWLINE :: (pad level ++ u "    ")).
      now rewrite pad_end, blank_margin.
  - destruct (negb (Nat.eqb level 0)) eqn:El; simpl; [|reflexivity].
    destruct (blank tail) eqn:Eb; [now rewrite blank_margin|now rewrite Eb].
  - now rewrite Hc.
Qed.

Lemma el_tail_indent_S level e :
  blank (el_tail e) = true ->
  el_tail (indent (S level) e) = Some (NEWLINE :: pad (S level)).
Proof.
  destruct e as [tag attrib text tail children]. cbn [el_tail indent].
  intros ->. reflexivity.
Qed.

Lemma tails_fix_last_tail i m c cs :
  blank (Some m) = true ->
  Forall (fun x => el_tail x = Some m) (c :: cs) ->
  map el_tail (fix_last_tail i (c :: cs))
  = repeat (Some m) (length cs) ++ [Some i].
Proof.
  intros Hm. revert c. induction cs as [|c' cs IH]; intros c H.
  - inversion H as [|x l Hc _]; subst. cbn [fix_last_tail].
    rewrite Hc, Hm. destruct c; reflexivity.
  - inversion H as [|x l Hc Hcs]; subst.
    change (fix_last_tail i (c :: c' :: cs))
      with (c :: fix_last_tail i (c' :: cs)).
    cbn [map length repeat app]. rewrite Hc, (IH c' Hcs). reflexivity.
Qed.

(** X13: the layout that [indent] gives an element whose text and whose
    children's tails are blank: the text becomes a line feed and the
    margin of the next level, four spaces for each level, so does the
    tail of every child but the last, and the tail of the last child
    becomes a line feed and the margin of the element's own level. *)
Theorem indent_layout :
  forall level e c cs,
    el_children e = c :: cs ->
    blank (el_text e) = true ->
    Forall (fun x => blank (el_tail x) = true) (c :: cs) ->
    el_text (indent level e) = Some (NEWLINE :: pad (S level))
    /\ map el_tail (el_children (indent level e))
       = repeat (Some (NEWLINE :: pad (S level))) (length cs)
         ++ [Some (NEWLINE :: pad level)].
Proof.
  intros level [tag attrib text tail children] c cs Hch Ht Hall.
  cbn [el_children el_text] in Hch, Ht. subst children.
  cbn [indent el_text el_children]. rewrite Ht. split.
  - change ((NEWLINE :: pad level) ++ u "    ")
      with (NEWLINE :: (pad level ++ u "    ")).
    now rewrite pad_end.
  - cbn [map].
    rewrite (tails_fix_last_tail _ (NEWLINE :: pad (S level))).
    + now rewrite length_map.
    + apply blank_margin.
    + change (indent (S level) c :: map (indent (S level)) cs)
        with (map (indent (S level)) (c :: cs)).
      apply Forall_map. eapply Forall_impl; [|exact Hall].
      intros x Hx. now apply el_tail_indent_S.
Qed.

Lemma indent_layout_witness :
  let e := title_element
             (mkTitle (u "TITLE 1.—GENERAL PROVISIONS")
                [mkChapter (u "Chapter 1.—RULES.") [];
                 mkChapter (u "Chapter 2.—ACTS.") []]) in
  el_text (indent 1 e) = Some (NEWLINE :: pad 2)
  /\ map el_tail (el_children (indent 1 e))
     = repeat (Some (NEWLINE :: pad 2)) 1 ++ [Some (NEWLINE :: pad 1)].
Proof.
  intros e.
  apply (indent_layout 1 e
           (chapter_element (mkChapter (u "Chapter 1.—RULES.") []))
           [chapter_element (mkChapter (u "Chapter 2.—ACTS.") [])]).
  - reflexivity.
  - reflexivity.
  - repeat constructor.
Defined.

Lemma map_fix_last_tail (A : Type) (f : Element -> A) i children :
  (forall t e, f (set_tail t e) = f e) ->
  map f (fix_last_tail i children) = map f children.
Proof.
  intros Hf. induction children as [|e [|e' rest] IH]; [reflexivity| |].
  - cbn [fix_last_tail map]. destruct (blank (el_tail e)); [|reflexivity].
    now rewrite Hf.
  - change (fix_last_tail i (e :: e' :: rest))
      with (e :: fix_last_tail i (e' :: rest)).
    cbn [map]. now rewrite IH.
Qed.

Lemma str_eqb_refl a : str_eqb a a = true.
Proof.
  unfold str_eqb. destruct (list_eq_dec N.eq_dec a a); congruence.
Qed.

Lemma section_of_indent level s :
  section_of (indent level (section_element s)) = s.
Proof.
  destruct s as [name text]. unfold section_of, section_element.
  cbn [indent el_attrib el_text get]. now rewrite str_eqb_refl.
Qed.

Lemma chapter_of_indent level ch :
  chapter_of (indent level (chapter_element ch)) = ch.
Proof.
  destruct ch as [name secs]. unfold chapter_of, chapter_element.
  cbn [indent el_attrib el_children get ch_name ch_sections].
  rewrite str_eqb_refl. f_equal.
  rewrite map_fix_last_tail by (intros t [? ? ? ? ?]; reflexivity).
  rewrite !map_map. rewrite <- (map_id secs) at 2.
  apply map_ext. intros s. apply section_of_indent.
Qed.

Lemma title_of_indent level t :
  title_of (indent level (title_element t)) = t.
Proof.
  destruct t as [name chs]. unfold title_of, title_element.
  cbn [indent el_attrib el_children get title_name title_chapters].
  rewrite str_eqb_refl. f_equal.
  rewrite map_fix_last_tail by (intros t [? ? ? ? ?]; reflexivity).
  rewrite !map_map. rewrite <- (map_id chs) at 2.
  apply map_ext. intros ch. apply chapter_of_indent.
Qed.

(** X14: the indentation loses nothing of the result: the root of the
    tree that [to_xml_tree] returns has one child, and the name of the
    Title, the names of its Chapters in their order, and the name and
    the text of each of their Sections, read from that child, are the
    ones the parser made; the text of a Section is never changed, also
    when it is empty. *)
Theorem tree_holds_the_title :
  forall t, map title_of (el_children (xml_root t)) = [t].
Proof.
  intros t. unfold xml_root, root_element. cbn [indent el_children].
  rewrite map_fix_last_tail by (intros x [? ? ? ? ?]; reflexivity).
  cbn [map]. now rewrite title_of_indent.
Qed.

(** ** Instances of the further statements *)

Lemma first_title_line_wins_witness :
  Forall (fun q => re_match RE_TITLE_LINE_MIN q = None) [u "AN ACT"]
  /\ re_match RE_TITLE_LINE_MIN (u "TITLE 1.—GENERAL PROVISIONS")
     = Some [u "1"; u "GENERAL PROVISIONS"]
  /\ build_title_name (u "Title 9")
       ([u "AN ACT"] ++ u "TITLE 1.—GENERAL PROVISIONS"
                        :: [u "TITLE 2.—THE CONGRESS"])
     = build_title_name (u "statutes") [u "TITLE 1.—GENERAL PROVISIONS"]
  /\ fst (build_title_name (u "Title 9")
            ([u "AN ACT"] ++ u "TITLE 1.—GENERAL PROVISIONS"
                             :: [u "TITLE 2.—THE CONGRESS"]))
     = group 1 [u "1"; u "GENERAL PROVISIONS"].
Proof.
  assert (H1 : Forall (fun q => re_match RE_TITLE_LINE_MIN q = None)
                 [u "AN ACT"]) by (repeat constructor).
  assert (H2 : re_match RE_TITLE_LINE_MIN (u "TITLE 1.—GENERAL PROVISIONS")
               = Some [u "1"; u "GENERAL PROVISIONS"]) by reflexivity.
  split; [exact H1|]. split; [exact H2|].
  exact (first_title_line_wins (u "Title 9") (u "statutes") [u "AN ACT"]
           (u "TITLE 1.—GENERAL PROVISIONS") [u "TITLE 2.—THE CONGRESS"] []
           [u "1"; u "GENERAL PROVISIONS"] H1 H2).
Defined.

Lemma parse_splits_at_chapter_headers_witness :
  is_chapter_head (u "Chapter 2.—ACTS") = true
  /\ exists ca cb,
       parse [u "Chapter 1.—RULES"; u "1. Short title.—This is the body."]
       = Some ca
       /\ parse [u "Chapter 2.—ACTS"; u "2. Words.—More."] = Some cb
       /\ parse ([u "Chapter 1.—RULES"; u "1. Short title.—This is the body."]
                 ++ [u "Chapter 2.—ACTS"; u "2. Words.—More."])
          = Some (ca ++ cb).
Proof.
  assert (H : is_chapter_head (u "Chapter 2.—ACTS") = true) by reflexivity.
  split; [exact H|].
  exact (parse_splits_at_chapter_headers
           [u "Chapter 1.—RULES"; u "1. Short title.—This is the body."]
           (u "Chapter 2.—ACTS") [u "2. Words.—More."] H).
Defined.

(** ** Section-start lines in a whole parse *)

Lemma all_sections_append_last s chs : forall k,
  S k = length chs ->
  all_sections (append_section k s chs) = all_sections chs ++ [s].
Proof.
  unfold all_sections.
  induction chs as [|ch chs IH]; intros k Hk; [discriminate|].
  destruct k as [|k]; simpl in *.
  - destruct chs; [|discriminate]. simpl. now rewrite !app_nil_r.
  - rewrite IH by lia. now rewrite app_assoc.
Qed.

Lemma last_open_start_chapter num name st : last_open (start_chapter num name st).
Proof. unfold last_open. simpl. rewrite length_app. simpl. lia. Qed.

Lemma add_section_appends num title body st :
  last_open st ->
  last_open (add_section num title body st)
  /\ current_chapter (add_section num title body st) <> None
  /\ all_sections (chapters (add_section num title body st))
     = all_sections (chapters st)
       ++ [mkSection (num ++ u ". " ++ strip title) (strip body)].
Proof.
  unfold last_open. destruct (current_chapter st) as [k|] eqn:E; intros H.
  - rewrite (add_section_some _ _ _ _ _ E). cbn [current_chapter chapters].
    rewrite length_append_section.
    split; [exact H|]. split; [discriminate|].
    now apply all_sections_append_last.
  - rewrite (add_section_none _ _ _ _ E). cbn [current_chapter chapters].
    rewrite length_append_section, length_app. rewrite H.
    split; [simpl; lia|]. split; [discriminate|]. reflexivity.
Qed.

Lemma main_step_appends paras st :
  last_open st ->
  last_open (main_step paras st)
  /\ exists more,
       all_sections (chapters (main_step paras st))
       = all_sections (chapters st) ++ more.
Proof.
  intros H. apply main_step_cases; cbv zeta; intros.
  - split; [apply last_open_start_chapter|]. exists [].
    cbn [set_cursor start_chapter chapters]. unfold all_sections.
    rewrite flat_map_app. reflexivity.
  - destruct (add_section_appends (group 1 sm) (group 2 sm) (group 3 sm) st H)
      as (Hl & _ & Hs).
    split; [exact Hl|]. eexists. exact Hs.
  - match goal with
    | |- context [add_section ?a ?b ?c st] =>
        destruct (add_section_appends a b c st H) as (Hl & _ & Hs)
    end.
    split; [exact Hl|]. eexists. exact Hs.
  - split; [exact H|]. exists []. now rewrite app_nil_r.
Qed.

Lemma main_loop_appends paras : forall f st r,
  last_open st ->
  main_loop f paras st = Some r ->
  exists after,
    all_sections (chapters r) = all_sections (chapters st) ++ after.
Proof.
  intros f st r Hl Hr.
  apply (main_loop_invariant
           (fun s => last_open s
                     /\ exists after,
                          all_sections (chapters s)
                          = all_sections (chapters st) ++ after) paras)
    in Hr.
  - apply Hr.
  - intros s _ (Hs & after & E).
    destruct (main_step_appends paras s Hs) as (Hs' & more & E').
    split; [exact Hs'|]. exists (after ++ more). now rewrite E', E, app_assoc.
  - split; [exact Hl|]. exists []. now rewrite app_nil_r.
Qed.

Lemma take_until_found stop a b :
  existsb stop a = true -> take_until stop (a ++ b) = take_until stop a.
Proof.
  induction a as [|x a IH]; simpl; [discriminate|].
  destruct (stop x); [reflexivity|]. simpl. intros H. now rewrite IH.
Qed.

Lemma take_until_exact stop body b :
  Forall (fun l => stop l = false) body ->
  match b with [] => True | nxt :: _ => stop nxt = true end ->
  take_until stop (body ++ b) = body.
Proof.
  intros Hb Hn. induction body as [|l body IH]; simpl.
  - destruct b; [reflexivity|]. simpl. now rewrite Hn.
  - inversion Hb as [|? ? Hl Hb']; subst. now rewrite Hl, IH.
Qed.

Lemma header_names_found a :
  existsb is_chapter_head a = true -> header_names a <> [].
Proof.
  induction a as [|l a IH]; simpl; [discriminate|].
  unfold header_names. simpl. unfold is_chapter_head at 1.
  destruct (re_match RE_CHAPTER_HEAD l); [discriminate|]. simpl. exact IH.
Qed.

Lemma skipn_here {A} (l : list A) n x tl d :
  skipn n l = x :: tl -> nth n l d = x /\ skipn (n + 1) l = tl /\ n < length l.
Proof.
  revert n. induction l as [|y l IH]; intros n H.
  - destruct n; discriminate.
  - destruct n; simpl in *.
    + inversion H. repeat split; lia.
    + destruct (IH n H) as (H1 & H2 & H3). repeat split; auto. lia.
Qed.

(** The second loop on lines with a chapter header among [a] comes to the
    line after [a] when that line ends a body, in the state in which it
    leaves [a]. *)
Lemma parse_reaches a h b :
  existsb is_chapter_head a = true ->
  ends_body h = true ->
  exists st,
    parse a = Some (chapters st)
    /\ cursor st = length a
    /\ passes_through (a ++ h :: b) st.
Proof.
  intros Ha He.
  set (init := mkState (length (take_until is_chapter_head a)) [] None).
  destruct (main_loop_total a (length a) init) as (st & Est); [lia|].
  assert (Hcur : cursor st = length a).
  { pose proof (main_loop_exit _ _ _ _ Est).
    pose proof (main_loop_cursor_le a _ _ _ (skip_preamble_bounds_0 a) Est).
    lia. }
  assert (Hp : parse a = Some (chapters st)).
  { unfold parse. rewrite skip_preamble_take_until. fold init. now rewrite Est. }
  exists st. split; [exact Hp|]. split; [exact Hcur|].
  assert (Hlast : last_open st).
  { apply (main_loop_invariant last_open a) in Est; [exact Est| |reflexivity].
    intros s _ Hs. now apply main_step_appends. }
  split; [exact Hlast|]. split.
  - pose proof (parse_chapter_names a _ Hp) as Hn.
    pose proof (header_names_found a Ha) as Hne.
    unfold last_open in Hlast.
    destruct (current_chapter st); [discriminate|].
    rewrite Hlast in Hn. simpl in Hn. congruence.
  - intros f r Hr.
    destruct (main_loop_through a h b He _ _ _ Est _ _ Hr) as (f' & Hf).
    unfold parse. rewrite skip_preamble_take_until.
    rewrite (take_until_found is_chapter_head a (h :: b) Ha). fold init.
    destruct (main_loop_total (a ++ h :: b) (length (a ++ h :: b)) init)
      as (r' & Er); [lia|].
    rewrite Er. now rewrite (main_loop_same _ _ _ _ _ _ Er Hf).
Qed.

(** A turn of the second loop on a section-start line: the lines after it
    up to the first one that ends a body become the body of a new last
    Section, and the cursor goes to the line after them. *)
Lemma section_start_turn paras st d t body b :
  passes_through paras st ->
  is_number d -> is_heading t ->
  skipn (cursor st) paras = section_start d t :: body ++ b ->
  Forall (fun l => ends_body l = false) body ->
  body_ends_at b ->
  exists st',
    passes_through paras st'
    /\ cursor st' = cursor st + 1 + length body
    /\ all_sections (chapters st')
       = all_sections (chapters st)
         ++ [mkSection (d ++ u ". " ++ strip t) (strip (join [NEWLINE] body))].
Proof.
  intros (Hlast & Hopen & Hpass) Hd Ht Hl Hbody Hb.
  destruct (skipn_here paras (cursor st) _ _ [] Hl) as (Hline & Hrest & Hlt).
  destruct (section_start_multi d t Hd Ht) as (g2 & Hm & Hs).
  assert (Hc : re_match RE_CHAPTER_HEAD (section_start d t) = None).
  { destruct Hd as [Hd Hdd]. destruct d as [|x ds]; [congruence|].
    simpl in Hdd. apply andb_true_iff in Hdd.
    apply number_not_chapter_head. tauto. }
  assert (Hstep : main_step paras st
                  = set_cursor (cursor st + 1 + length body)
                      (add_section d g2 (join [NEWLINE] body) st)).
  { unfold main_step. rewrite Hline, Hc, Hm.
    rewrite (section_start_not_inline d t Hd Ht).
    cbn [group nth Nat.sub nonempty].
    rewrite scan_body_take_until, Hrest.
    rewrite (take_until_exact ends_body body b Hbody Hb). reflexivity. }
  exists (main_step paras st). rewrite Hstep.
  destruct (add_section_appends d g2 (join [NEWLINE] body) st Hlast)
    as (Hl' & Ho' & Hs').
  split; [|split; [reflexivity|]].
  - split; [exact Hl'|]. split; [exact Ho'|].
    intros f r Hr. apply (Hpass (S f)). simpl.
    replace (length paras <=? cursor st) with false
      by (symmetry; now apply Nat.leb_gt).
    now rewrite Hstep.
  - cbn [set_cursor chapters]. now rewrite Hs', Hs.
Qed.

(** From a state that the second loop comes to, the Sections made so far
    stay, in their order, at the front of the Sections of the output. *)
Lemma parse_finishes paras st :
  passes_through paras st ->
  exists chs after,
    parse paras = Some chs
    /\ all_sections chs = all_sections (chapters st) ++ after.
Proof.
  intros (Hlast & _ & Hpass).
  destruct (main_loop_total paras (length paras - cursor st) st) as (r & Hr);
    [lia|].
  destruct (main_loop_appends paras _ _ _ Hlast Hr) as (after & E).
  exists (chapters r), after. split; [now apply (Hpass _ _ Hr)|exact E].
Qed.

Lemma skipn_app_here {A} (a b : list A) : skipn (length a) (a ++ b) = b.
Proof. rewrite skipn_app, skipn_all, Nat.sub_diag. reflexivity. Qed.

Lemma skipn_app_more {A} (a b : list A) n :
  skipn (length a + n) (a ++ b) = skipn n b.
Proof.
  rewrite skipn_app, skipn_all2 by lia.
  replace (length a + n - length a) with n by lia. reflexivity.
Qed.

(** The Sections that section-start lines give in a whole parse. *)
Lemma parse_section_start a d t body b :
  existsb is_chapter_head a = true ->
  is_number d -> is_heading t ->
  Forall (fun l => ends_body l = false) body ->
  body_ends_at b ->
  exists chs ca after,
    parse (a ++ section_start d t :: body ++ b) = Some chs
    /\ parse a = Some ca
    /\ all_sections chs
       = all_sections ca
         ++ mkSection (d ++ u ". " ++ strip t) (strip (join [NEWLINE] body))
            :: after.
Proof.
  intros Ha Hd Ht Hbody Hb.
  destruct (parse_reaches a (section_start d t) (body ++ b) Ha
              (section_start_ends_body d t Hd Ht)) as (st & Hp & Hcur & Hpass).
  destruct (section_start_turn _ st d t body b Hpass Hd Ht) as (st1 & Hp1 & _ & Hs1);
    auto.
  { rewrite Hcur. apply skipn_app_here. }
  destruct (parse_finishes _ st1 Hp1) as (chs & after & Hchs & Hall).
  exists chs, (chapters st), after. split; [exact Hchs|]. split; [exact Hp|].
  now rewrite Hall, Hs1, <- app_assoc.
Qed.

Lemma parse_two_section_starts a d1 t1 d2 t2 b :
  existsb is_chapter_head a = true ->
  is_number d1 -> is_heading t1 -> is_number d2 -> is_heading t2 ->
  body_ends_at b ->
  exists chs ca after,
    parse (a ++ section_start d1 t1 :: section_start d2 t2 :: b) = Some chs
    /\ parse a = Some ca
    /\ all_sections chs
       = all_sections ca
         ++ mkSection (d1 ++ u ". " ++ strip t1) []
            :: mkSection (d2 ++ u ". " ++ strip t2) [] :: after.
Proof.
  intros Ha Hd1 Ht1 Hd2 Ht2 Hb.
  pose proof (section_start_ends_body d2 t2 Hd2 Ht2) as He2.
  destruct (parse_reaches a (section_start d1 t1) (section_start d2 t2 :: b) Ha
              (section_start_ends_body d1 t1 Hd1 Ht1)) as (st & Hp & Hcur & Hpass).
  destruct (section_start_turn _ st d1 t1 [] (section_start d2 t2 :: b)
              Hpass Hd1 Ht1) as (st1 & Hp1 & Hc1 & Hs1); auto.
  { rewrite Hcur. apply skipn_app_here. }
  destruct (section_start_turn _ st1 d2 t2 [] b Hp1 Hd2 Ht2)
    as (st2 & Hp2 & _ & Hs2); auto.
  { rewrite Hc1, Hcur. simpl length. rewrite Nat.add_0_r.
    now rewrite skipn_app_more. }
  destruct (parse_finishes _ st2 Hp2) as (chs & after & Hchs & Hall).
  exists chs, (chapters st), after. split; [exact Hchs|]. split; [exact Hp|].
  rewrite Hall, Hs2, Hs1, <- !app_assoc. reflexivity.
Qed.

(** C7 as it is worded fails on the code in two ways.  Two section-start
    lines with no chapter header before them are passed over by the first
    loop and give no Section at all; and after a chapter header, when a
    line that ends no body follows the second of them, that line becomes
    the body of the second Section, which is then not empty. *)
Lemma section_starts_without_header_or_end :
  paragraphs_of section_starts_alone
  = [section_start (u "1") (u "Short title");
     section_start (u "2") (u "Definitions")]
  /\ to_xml_tree (u "Title 1") section_starts_alone
     = Some (mkTitle (u "TITLE 1.—") [], u "1")
  /\ paragraphs_of section_starts_then_text
     = [u "Chapter 1.—General.";
        section_start (u "1") (u "Short title");
        section_start (u "2") (u "Definitions");
        u "In this Act the words have their meaning."]
  /\ to_xml_tree (u "Title 1") section_starts_then_text
     = Some (mkTitle (u "TITLE 1.—")
               [mkChapter (u "Chapter 1.—General.")
                  [mkSection (u "1. Short title") [];
                   mkSection (u "2. Definitions")
                     (u "In this Act the words have their meaning.")]],
             u "1")
  /\ u "In this Act the words have their meaning." <> [].
Proof.
  split; [vm_compute; reflexivity|].
  split; [vm_compute; reflexivity|].
  split; [vm_compute; reflexivity|].
  split; [vm_compute; reflexivity|].
  vm_compute. discriminate.
Qed.

(** C7: two section-start lines in a row that come after a chapter header,
    with no body line after either (the second is the last line, or the
    line after it ends a body): the tree is built, and after the Sections
    of the lines before them come a Section for the first line and a
    Section for the second, each named by its number and title and each
    with the empty string as its body. *)
Theorem consecutive_section_starts :
  forall stem raw a d1 t1 d2 t2 b,
    paragraphs_of raw
    = a ++ section_start d1 t1 :: section_start d2 t2 :: b ->
    existsb is_chapter_head a = true ->
    is_number d1 -> is_heading t1 -> is_number d2 -> is_heading t2 ->
    body_ends_at b ->
    exists t num ca after,
      to_xml_tree stem raw = Some (t, num)
      /\ parse a = Some ca
      /\ all_sections (title_chapters t)
         = all_sections ca
           ++ mkSection (d1 ++ u ". " ++ strip t1) []
              :: mkSection (d2 ++ u ". " ++ strip t2) [] :: after.
Proof.
  intros stem raw a d1 t1 d2 t2 b Hraw Ha Hd1 Ht1 Hd2 Ht2 Hb.
  destruct (parse_two_section_starts a d1 t1 d2 t2 b Ha Hd1 Ht1 Hd2 Ht2 Hb)
    as (chs & ca & after & Hchs & Hca & Hall).
  rewrite <- Hraw in Hchs.
  eexists _, _, ca, after.
  split; [exact (to_xml_tree_eq stem raw chs Hchs)|].
  split; [exact Hca|exact Hall].
Qed.

Lemma consecutive_section_starts_witness :
  paragraphs_of scenario_D
  = [u "Chapter 1.—General."]
    ++ section_start (u "1") (u "Short title")
       :: section_start (u "2") (u "Definitions") :: []
  /\ existsb is_chapter_head [u "Chapter 1.—General."] = true
  /\ exists t num ca after,
       to_xml_tree (u "Title 1") scenario_D = Some (t, num)
       /\ parse [u "Chapter 1.—General."] = Some ca
       /\ all_sections (title_chapters t)
          = all_sections ca
            ++ mkSection (u "1" ++ u ". " ++ strip (u "Short title")) []
               :: mkSection (u "2" ++ u ". " ++ strip (u "Definitions")) []
               :: after.
Proof.
  assert (H0 : paragraphs_of scenario_D
               = [u "Chapter 1.—General."]
                 ++ section_start (u "1") (u "Short title")
                    :: section_start (u "2") (u "Definitions") :: [])
    by (vm_compute; reflexivity).
  assert (H1 : existsb is_chapter_head [u "Chapter 1.—General."] = true)
    by (vm_compute; reflexivity).
  assert (N1 : is_number (u "1")) by (split; [discriminate|reflexivity]).
  assert (N2 : is_number (u "2")) by (split; [discriminate|reflexivity]).
  assert (T1 : is_heading (u "Short title")).
  { split; [reflexivity|]. simpl. intros H.
    repeat (destruct H as [H|H]; [discriminate|]). exact H. }
  assert (T2 : is_heading (u "Definitions")).
  { split; [reflexivity|]. simpl. intros H.
    repeat (destruct H as [H|H]; [discriminate|]). exact H. }
  split; [exact H0|]. split; [exact H1|].
  exact (consecutive_section_starts (u "Title 1") scenario_D
           [u "Chapter 1.—General."] (u "1") (u "Short title")
           (u "2") (u "Definitions") [] H0 H1 N1 T1 N2 T2 I).
Defined.

(** X15: a section-start line that comes after a chapter header, followed
    by lines of which none ends a body and then by the end of the lines
    or by a line that ends a body: the tree is built, and after the
    Sections of the lines before comes a Section named by the number and
    title of the line, whose body is exactly the lines that follow it,
    in their order, joined by line feeds. *)
Theorem multi_line_section_body :
  forall stem raw a d t body b,
    paragraphs_of raw = a ++ section_start d t :: body ++ b ->
    existsb is_chapter_head a = true ->
    is_number d -> is_heading t ->
    Forall (fun l => ends_body l = false) body ->
    body_ends_at b ->
    exists tt num ca after,
      to_xml_tree stem raw = Some (tt, num)
      /\ parse a = Some ca
      /\ all_sections (title_chapters tt)
         = all_sections ca
           ++ mkSection (d ++ u ". " ++ strip t) (join [NEWLINE] body)
              :: after.
Proof.
  intros stem raw a d t body b Hraw Ha Hd Ht Hbody Hb.
  destruct (parse_section_start a d t body b Ha Hd Ht Hbody Hb)
    as (chs & ca & after & Hchs & Hca & Hall).
  rewrite <- Hraw in Hchs.
  assert (Hlines : Forall is_line body).
  { pose proof (paragraphs_of_lines raw) as H. rewrite Hraw in H.
    apply Forall_app in H. destruct H as [_ H].
    inversion H as [|? ? _ H']; subst.
    apply Forall_app in H'. tauto. }
  rewrite (strip_join_lines body Hlines) in Hall.
  eexists _, _, ca, after.
  split; [exact (to_xml_tree_eq stem raw chs Hchs)|].
  split; [exact Hca|exact Hall].
Qed.

Lemma multi_line_section_body_witness :
  paragraphs_of two_line_body
  = [u "Chapter 1.—General."]
    ++ section_start (u "1") (u "Short title")
       :: [u "This Act may be cited"; u "as the Act."]
          ++ [u "2. Definitions—"]
  /\ existsb is_chapter_head [u "Chapter 1.—General."] = true
  /\ Forall (fun l => ends_body l = false)
       [u "This Act may be cited"; u "as the Act."]
  /\ body_ends_at [u "2. Definitions—"]
  /\ exists tt num ca after,
       to_xml_tree (u "Title 1") two_line_body = Some (tt, num)
       /\ parse [u "Chapter 1.—General."] = Some ca
       /\ all_sections (title_chapters tt)
          = all_sections ca
            ++ mkSection (u "1" ++ u ". " ++ strip (u "Short title"))
                 (join [NEWLINE] [u "This Act may be cited"; u "as the Act."])
               :: after.
Proof.
  assert (H0 : paragraphs_of two_line_body
               = [u "Chapter 1.—General."]
                 ++ section_start (u "1") (u "Short title")
                    :: [u "This Act may be cited"; u "as the Act."]
                       ++ [u "2. Definitions—"])
    by (vm_compute; reflexivity).
  assert (H1 : existsb is_chapter_head [u "Chapter 1.—General."] = true)
    by (vm_compute; reflexivity).
  assert (N1 : is_number (u "1")) by (split; [discriminate|reflexivity]).
  assert (T1 : is_heading (u "Short title")).
  { split; [reflexivity|]. simpl. intros H.
    repeat (destruct H as [H|H]; [discriminate|]). exact H. }
  assert (H2 : Forall (fun l => ends_body l = false)
                 [u "This Act may be cited"; u "as the Act."])
    by (repeat constructor).
  assert (H3 : body_ends_at [u "2. Definitions—"])
    by (vm_compute; reflexivity).
  split; [exact H0|]. split; [exact H1|]. split; [exact H2|].
  split; [exact H3|].
  exact (multi_line_section_body (u "Title 1") two_line_body
           [u "Chapter 1.—General."] (u "1") (u "Short title")
           [u "This Act may be cited"; u "as the Act."] [u "2. Definitions—"]
           H0 H1 N1 T1 H2 H3).
Defined.
